(** * Message-delivery core of the LogStore client: PushBuffer, Pipeline,
      pOnce and OrderingUtil

    Shallow embedding of
    - [utils/PushBuffer.ts] (class [PushBuffer], function [pull]),
    - [utils/Pipeline.ts] (classes [PipelineDefinition], [Pipeline]),
    - [utils/promises.ts] (function [pOnce]),
    - [subscribe/ordering/OrderingUtil.ts] (class [OrderingUtil]).

    JavaScript runs one synchronous segment at a time: an [async] function
    or generator runs without interruption up to its next [await] or
    [yield].  Every definition below is one such segment, written as a
    function on the state of the object; the points where the code is
    suspended are part of that state.

    The classes [Gate], [Signal] and [OrderedMsgChain] are used by these
    files but their sources are absent; they are modelled from the
    specification, and marked so. *)

From stdpp Require Import gmap strings list.
From Stdlib Require Import Ascii ZArith Lia Bool.

Local Open Scope Z_scope.

(** ** Exceptions *)

(** The [code] argument of [StreamrClientError]. *)
Inductive ErrorCode := INVALID_ARGUMENT | PIPELINE_ERROR.

(** What a call can throw: a [StreamrClientError], the [TypeError] that the
    runtime raises, or an error value [e] that came from the user of the
    object (given to [end], [throw], pushed as an item, raised by a source). *)
Inductive Exception (Error : Type) :=
| StreamrClientError (message : string) (code : ErrorCode)
| TypeError (message : string)
| Raised (e : Error).
Arguments StreamrClientError {Error} message code.
Arguments TypeError {Error} message.
Arguments Raised {Error} e.

(** The two error kinds of the specification, as the code spells them. *)
Definition isIllegalState {Error} (x : Exception Error) : bool :=
  match x with StreamrClientError _ PIPELINE_ERROR => true | _ => false end.

Definition isInvalidArgument {Error} (x : Exception Error) : bool :=
  match x with StreamrClientError _ INVALID_ARGUMENT => true | _ => false end.

(** A call that returns [A] or throws. *)
Inductive Completion (Error A : Type) :=
| Returns (a : A)
| Throws (x : Exception Error).
Arguments Returns {Error A} a.
Arguments Throws {Error A} x.

(** ** Gate *)

Module Gate.

(** Modelled from the spec: class [Gate] ([utils/Gate.ts]) is imported by
    PushBuffer.ts but is not among the sources.  From section 4.1: the state is one of
    open, closed, locked; [open()], [close()] and [lock()] set the state;
    nothing changes a locked gate; [setOpenState(bool)] toggles open and
    closed only; [check()] resolves true as soon as the gate is open, resolves
    false once it is locked, and suspends otherwise; there is a single
    pending waiter, resolved exactly once per transition. *)
Inductive State := Open | Closed | Locked.

(** Modelled from the spec: the slot of the single pending waiter of
    [check()], resolved once per transition. *)
Inductive Waiter := Idle | Waiting | Woken (ok : bool).

(** Modelled from the spec: a gate is its state and its waiter slot. *)
Record t := mk { state : State; waiter : Waiter }.

(** Modelled from the spec: a transition to open or locked resolves the
    pending waiter, with true or false. *)
Definition wake (ok : bool) (w : Waiter) : Waiter :=
  match w with Waiting => Woken ok | _ => w end.

(** Modelled from the spec: [new Gate()]; PushBuffer closes its gates right
    after making them. *)
Definition new : t := mk Open Idle.

(** Modelled from the spec: [isLocked]. *)
Definition isLocked (g : t) : bool :=
  match state g with Locked => true | _ => false end.

(** Modelled from the spec: [open()]; a locked gate stays locked. *)
Definition open (g : t) : t :=
  if isLocked g then g else mk Open (wake true (waiter g)).

(** Modelled from the spec: [close()]. *)
Definition close (g : t) : t :=
  if isLocked g then g else mk Closed (waiter g).

(** Modelled from the spec: [lock()]. *)
Definition lock (g : t) : t :=
  if isLocked g then g else mk Locked (wake false (waiter g)).

(** Modelled from the spec: [setOpenState(bool)], no-op once locked. *)
Definition setOpenState (shouldBeOpen : bool) (g : t) : t :=
  if shouldBeOpen then open g else close g.

(** Modelled from the spec: [check()], [Some b] when the promise is resolved
    with [b] at the call, [None] when the caller is left waiting in the slot. *)
Definition check (g : t) : t * option bool :=
  match state g with
  | Open => (g, Some true)
  | Locked => (g, Some false)
  | Closed => (mk Closed Waiting, None)
  end.

(** Modelled from the spec: the waiter has been resumed, the slot is free. *)
Definition release (g : t) : t := mk (state g) Idle.

(** Somebody is in the slot, and is woken unless the gate is closed. *)
Definition attended (g : t) : Prop :=
  match waiter g with
  | Idle => False
  | Waiting => state g = Closed
  | Woken _ => True
  end.

End Gate.

(** ** PushBuffer *)

Module PushBuffer.

Definition DEFAULT_BUFFER_SIZE : Z := 256.

(** [Number.MAX_SAFE_INTEGER] *)
Definition MAX_SAFE_INTEGER : Z := 2 ^ 53 - 1.

Section WithTypes.

Context {T Error : Type}.

(** An element of [buffer : (T | Error)[]]; [isError] tells the two apart. *)
Inductive Item := Value (v : T) | Err (e : Error).

Definition isError (v : Item) : bool :=
  match v with Err _ => true | Value _ => false end.

(** Where the async generator [iterate()] is suspended. *)
Inductive Point :=
| SuspendedStart   (* created, body not entered *)
| SuspendedYield   (* at [yield v] *)
| AwaitingRead     (* at [await this.readGate.check()] *)
| Completed.

(** A request to the generator object [this.iterator]. *)
Inductive Request := ReqNext | ReqReturn | ReqThrow (e : Error).

(** How a request settles. *)
Inductive ReadResult :=
| Yield (v : T)      (* resolves [{ value: v, done: false }] *)
| Done               (* resolves [{ done: true }] *)
| Throw (e : Error)  (* rejects with [e] *)
| Pending.           (* not settled in this segment *)

Record t := mk {
  buffer : list Item;
  bufferSize : Z;
  writeGate : Gate.t;
  readGate : Gate.t;
  error : option Error;
  isIterating : bool;
  (* the generator object [iterator] *)
  point : Point;
  queue : list Request  (* requests received while the generator was running *)
}.

Definition set_buffer (b : list Item) (s : t) : t :=
  mk b (bufferSize s) (writeGate s) (readGate s) (error s) (isIterating s) (point s) (queue s).
Definition set_writeGate (g : Gate.t) (s : t) : t :=
  mk (buffer s) (bufferSize s) g (readGate s) (error s) (isIterating s) (point s) (queue s).
Definition set_readGate (g : Gate.t) (s : t) : t :=
  mk (buffer s) (bufferSize s) (writeGate s) g (error s) (isIterating s) (point s) (queue s).
Definition set_error (e : option Error) (s : t) : t :=
  mk (buffer s) (bufferSize s) (writeGate s) (readGate s) e (isIterating s) (point s) (queue s).
Definition set_isIterating (b : bool) (s : t) : t :=
  mk (buffer s) (bufferSize s) (writeGate s) (readGate s) (error s) b (point s) (queue s).
Definition set_point (p : Point) (s : t) : t :=
  mk (buffer s) (bufferSize s) (writeGate s) (readGate s) (error s) (isIterating s) p (queue s).
Definition set_queue (q : list Request) (s : t) : t :=
  mk (buffer s) (bufferSize s) (writeGate s) (readGate s) (error s) (isIterating s) (point s) q.

(** [constructor(bufferSize = DEFAULT_BUFFER_SIZE)]; a [bufferSize] that is
    not an integer has no counterpart in [Z]. *)
Definition new (bufferSize : Z) : Completion Error t :=
  if negb ((0 <? bufferSize) && (bufferSize <=? MAX_SAFE_INTEGER)) then
    Throws (StreamrClientError "bufferSize must be a safe positive integer" INVALID_ARGUMENT)
  else
    Returns (mk [] bufferSize (Gate.close Gate.new) (Gate.close Gate.new)
                None false SuspendedStart []).

(** [get length()] *)
Definition length (s : t) : nat := List.length (buffer s).

Definition isFull (s : t) : bool :=
  bufferSize s <=? Z.of_nat (length s).

Definition isDone (s : t) : bool :=
  Gate.isLocked (writeGate s) && Gate.isLocked (readGate s).

Definition isWritable (s : t) : bool :=
  negb (Gate.isLocked (writeGate s)) && negb (Gate.isLocked (readGate s)).

Definition updateWriteGate (s : t) : t :=
  set_writeGate (Gate.setOpenState (negb (isFull s)) (writeGate s)) s.

(** [push(item)]: the new state and the returned promise, [Some b] when it
    is resolved with [b] at once, [None] when it waits on [writeGate]. *)
Definition push (item : Item) (s : t) : t * option bool :=
  if negb (isWritable s) then (s, Some false)
  else
    let s := set_buffer (buffer s ++ [item]) s in
    let s := updateWriteGate s in
    let s := set_readGate (Gate.open (readGate s)) s in
    let '(g, r) := Gate.check (writeGate s) in
    (set_writeGate g s, r).

Definition lock (s : t) : t :=
  let s := set_writeGate (Gate.lock (writeGate s)) s in
  set_readGate (Gate.lock (readGate s)) s.

(** [end(err?)] *)
Definition end_ (err : option Error) (s : t) : t :=
  lock (match err with Some e => set_error (Some e) s | None => s end).

(** [endWrite(err?)] *)
Definition endWrite (err : option Error) (s : t) : t :=
  let s := match err, error s with
           | Some e, None => set_error (Some e) s
           | _, _ => s
           end in
  let s := set_readGate (Gate.open (readGate s)) s in
  set_writeGate (Gate.lock (writeGate s)) s.

Definition clear (s : t) : t := set_buffer [] s.

(** *** The generator [iterate()] *)

(** The [finally] block, and the generator completes. *)
Definition finally (s : t) : t :=
  set_point Completed (lock (set_buffer [] s)).

(** After the outer [while]: rethrow [this.error] once, then [finally]. *)
Definition epilogue (s : t) : t * ReadResult :=
  match error s with
  | Some e => (finally (set_error None s), Throw e)
  | None => (finally s, Done)
  end.

(** After the inner [while]: the two [break] tests, then
    [this.readGate.close(); await this.readGate.check()]. *)
Definition afterInner (s : t) : t * ReadResult :=
  if (length s =? 0)%nat && Gate.isLocked (writeGate s) then epilogue s
  else if isDone s then epilogue s
  else
    let s := set_readGate (Gate.close (readGate s)) s in
    let '(g, r) := Gate.check (readGate s) in
    let g := match r with
             | Some ok => Gate.mk (Gate.state g) (Gate.Woken ok)
             | None => g
             end in
    (set_point AwaitingRead (set_readGate g s), Pending).

(** Head of the inner [while]. *)
Definition inner (s : t) : t * ReadResult :=
  match buffer s with
  | v :: rest =>
      if negb (Gate.isLocked (readGate s)) then
        let s := updateWriteGate (set_buffer rest s) in
        match v with
        | Err e => (finally s, Throw e)
        | Value x => (set_point SuspendedYield s, Yield x)
        end
      else afterInner s
  | [] => afterInner s
  end.

(** Head of the outer [while]. *)
Definition outer (s : t) : t * ReadResult :=
  if Gate.isLocked (readGate s) then epilogue s else inner s.

(** One request to the generator object.  A generator that has not started
    completes on [return] and [throw] without entering its body; one that is
    running queues the request. *)
Definition request (r : Request) (s : t) : t * ReadResult :=
  match point s, r with
  | SuspendedStart, ReqNext => outer (set_isIterating true s)
  | SuspendedStart, ReqReturn => (set_point Completed s, Done)
  | SuspendedStart, ReqThrow e => (set_point Completed s, Throw e)
  | SuspendedYield, ReqNext => inner s
  | SuspendedYield, ReqReturn => (finally s, Done)
  | SuspendedYield, ReqThrow e => (finally s, Throw e)
  | AwaitingRead, _ => (set_queue (queue s ++ [r]) s, Pending)
  | Completed, ReqNext => (s, Done)
  | Completed, ReqReturn => (s, Done)
  | Completed, ReqThrow e => (s, Throw e)
  end.

Definition isAwaiting (s : t) : bool :=
  match point s with AwaitingRead => true | _ => false end.

(** The queued requests are served in order once the running one settled,
    until one of them is left running. *)
Fixpoint drain (q : list Request) (s : t) (settled : list ReadResult)
  : t * list ReadResult :=
  match q with
  | [] => (set_queue [] s, settled)
  | r :: q' =>
      let '(s1, res) := request r (set_queue [] s) in
      if isAwaiting s1 then (set_queue q' s1, settled)
      else drain q' s1 (settled ++ [res])
  end.

(** The generator continues after [await this.readGate.check()], once the
    gate has woken it with [ok]; the results are those of the request that
    was running and of the queued ones served after it. *)
Definition resume (s : t) : option (t * list ReadResult) :=
  match point s, Gate.waiter (readGate s) with
  | AwaitingRead, Gate.Woken ok =>
      let q := queue s in
      let s := set_readGate (Gate.release (readGate s)) s in
      let '(s1, res) := if ok then outer s else epilogue s in
      if isAwaiting s1 then Some (s1, [])
      else Some (drain q s1 [res])
  | _, _ => None
  end.

(** *** AsyncGenerator implementation *)

Definition next (s : t) : t * ReadResult := request ReqNext s.

(** [return(v)] *)
Definition return_ (s : t) : t * ReadResult := request ReqReturn (end_ None s).

Definition throw (err : Error) (s : t) : t * ReadResult :=
  request (ReqThrow err) (endWrite (Some err) s).

(** [new this.constructor.Error(this, message)].  Class [PushBuffer] declares
    no static member [Error], so [this.constructor.Error] is [undefined] on an
    instance made by [new PushBuffer(...)], and [new undefined(...)] raises a
    [TypeError]. *)
Definition constructor_Error : option (string -> Exception Error) := None.

Definition new_constructor_Error (message : string) : Exception Error :=
  match constructor_Error with
  | Some make => make message
  | None => TypeError "this.constructor.Error is not a constructor"
  end.

(** [[Symbol.asyncIterator]()] *)
Definition asyncIterator (s : t) : Completion Error t :=
  if isIterating s then Throws (new_constructor_Error "already iterating")
  else Returns s.

(** The guard of [collect(n?)]; past it the call goes on to [G.collect(this, n)]. *)
Definition collect_guard (s : t) : Completion Error t :=
  if isIterating s then
    Throws (new_constructor_Error "Cannot collect if already iterating.")
  else Returns s.

(** *** Pulling from a source *)

(** An upstream [AsyncGenerator<T>]: it yields [items] and then either
    returns or throws [failure]. *)
Record Source := mkSource { items : list T; failure : option Error }.

(** How the [for await] loop over the source was left. *)
Inductive LoopEnd := Exhausted | Broke | Caught (e : Error).

Inductive Loop :=
| Ended (how : LoopEnd) (s : t)
| Blocked (rest : Source) (s : t).  (* at [await push(v)], promise pending *)

(** [for await (const v of src) { const ok = await push(v); if (stop) break }]
    inside [try]; [stop ok s] is the test of the [break]. *)
Fixpoint pull_loop (stop : bool -> t -> bool)
         (vs : list T) (fail : option Error) (s : t) : Loop :=
  match vs with
  | [] => match fail with
          | Some e => Ended (Caught e) s
          | None => Ended Exhausted s
          end
  | v :: rest =>
      let '(s1, r) := push (Value v) s in
      match r with
      | None => Blocked (mkSource rest fail) s1
      | Some ok => if stop ok s1 then Ended Broke s1
                   else pull_loop stop rest fail s1
      end
  end.

(** The pending [push] promise of a blocked loop resolved with [ok]. *)
Definition pull_loop_resume (stop : bool -> t -> bool)
           (ok : bool) (rest : Source) (s : t) : Loop :=
  if stop ok s then Ended Broke s
  else pull_loop stop (items rest) (failure rest) s.

(** Method [PushBuffer.pull(src)]: [catch (err) { /* this.endWrite(err) */ }]
    and then [this.endWrite()]. *)
Definition method_stop (ok : bool) (s : t) : bool :=
  negb ok || negb (isWritable s).

Definition method_after (l : Loop) : Loop :=
  match l with
  | Ended how s => Ended how (endWrite None s)
  | Blocked rest s => Blocked rest s
  end.

Definition pull (src : Source) (s : t) : Loop :=
  method_after (pull_loop method_stop (items src) (failure src) s).

Definition pull_resume (ok : bool) (rest : Source) (s : t) : Loop :=
  method_after (pull_loop_resume method_stop ok rest s).

(** Function [pull(src, dest)]: [catch (err) { dest.endWrite(err) }
    finally { dest.endWrite() }]. *)
Definition function_stop (ok : bool) (s : t) : bool := negb ok.

Definition function_after (l : Loop) : Loop :=
  match l with
  | Ended (Caught e) s => Ended (Caught e) (endWrite None (endWrite (Some e) s))
  | Ended how s => Ended how (endWrite None s)
  | Blocked rest s => Blocked rest s
  end.

Definition pull_into (src : Source) (dest : t) : Loop :=
  function_after (pull_loop function_stop (items src) (failure src) dest).

Definition pull_into_resume (ok : bool) (rest : Source) (dest : t) : Loop :=
  function_after (pull_loop_resume function_stop ok rest dest).

(** *** Runs *)

(** The calls a producer and a consumer can make on the buffer, and the
    resumption of the suspended generator. *)
Inductive Op :=
| OpPush (item : Item)
| OpNext
| OpResume
| OpReturn
| OpThrow (err : Error)
| OpEnd (err : option Error)
| OpEndWrite (err : option Error)
| OpLock
| OpClear.

Definition step (op : Op) (s : t) : t :=
  match op with
  | OpPush item => fst (push item s)
  | OpNext => fst (next s)
  | OpResume => match resume s with Some (s', _) => s' | None => s end
  | OpReturn => fst (return_ s)
  | OpThrow err => fst (throw err s)
  | OpEnd err => end_ err s
  | OpEndWrite err => endWrite err s
  | OpLock => lock s
  | OpClear => clear s
  end.

Definition run (ops : list Op) (s : t) : t :=
  fold_left (fun s op => step op s) ops s.

(** Successive pushes with no other call in between, and their promises. *)
Fixpoint pushAll (vs : list Item) (s : t) : t * list (option bool) :=
  match vs with
  | [] => (s, [])
  | v :: rest =>
      let '(s1, r) := push v s in
      let '(s2, rs) := pushAll rest s1 in
      (s2, r :: rs)
  end.

(** A [push] promise is still pending. *)
Definition pushPending (s : t) : bool :=
  match Gate.waiter (writeGate s) with Gate.Waiting => true | _ => false end.

(** The producer awaits every [push]: it calls [push] only when no promise
    of an earlier [push] is pending. *)
Fixpoint awaitsPushes (ops : list Op) (s : t) : bool :=
  match ops with
  | [] => true
  | op :: rest =>
      match op with OpPush _ => negb (pushPending s) | _ => true end
      && awaitsPushes rest (step op s)
  end.

(** [k] calls of [next()] by a consumer that awaits each result before it
    asks for the following one, as [for await] does: the results, and the
    state they leave. *)
Fixpoint reads (k : nat) (s : t) : list ReadResult :=
  match k with
  | O => []
  | S k' => snd (next s) :: reads k' (fst (next s))
  end.

Fixpoint afterReads (k : nat) (s : t) : t :=
  match k with
  | O => s
  | S k' => afterReads k' (fst (next s))
  end.

(** The consumer can take an item: the generator is suspended and the read
    gate is not locked. *)
Definition readable (s : t) : Prop :=
  Gate.isLocked (readGate s) = false
  /\ (point s = SuspendedStart \/ point s = SuspendedYield).

(** [s'] has locked what [s] has locked. *)
Definition keepsLocks (s s' : t) : Prop :=
  (Gate.isLocked (writeGate s) = true -> Gate.isLocked (writeGate s') = true)
  /\ (Gate.isLocked (readGate s) = true -> Gate.isLocked (readGate s') = true).

(** The calls that end writing: [end], [endWrite], [lock], [return], [throw]. *)
Definition closes (op : Op) : bool :=
  match op with
  | OpEnd _ | OpEndWrite _ | OpLock | OpReturn | OpThrow _ => true
  | _ => false
  end.

(** *** Invariants *)

(** The state after a segment of [iterate()]: the generator has started; if
    it completed, the [finally] block has run; if it awaits the read gate,
    it is in the gate's waiter slot. *)
Definition ran (s : t) : Prop :=
  point s <> SuspendedStart
  /\ (point s = Completed -> isDone s = true /\ buffer s = [])
  /\ (point s = AwaitingRead -> Gate.attended (readGate s)).

(** Holds of every state that calls on a new buffer lead to. *)
Definition consistent (s : t) : Prop :=
  (point s = SuspendedStart -> isIterating s = false)
  /\ (point s = Completed -> isIterating s = true -> isDone s = true /\ buffer s = [])
  /\ (point s = AwaitingRead -> Gate.attended (readGate s)).

(** Holds of every state that calls lead to when the producer awaits its
    pushes. *)
Definition bounded (s : t) : Prop :=
  0 < bufferSize s
  /\ Z.of_nat (length s) <= bufferSize s
  /\ (isWritable s = true -> pushPending s = false -> Z.of_nat (length s) < bufferSize s).

(** How a request settles on a completed generator. *)
Definition settledLate (r : Request) : ReadResult :=
  match r with ReqThrow e => Throw e | _ => Done end.

(** Iteration is over for good: nothing is buffered and every later read,
    whatever is called before it, yields completion. *)
Definition spent (s : t) : Prop :=
  point s = Completed /\ buffer s = []
  /\ forall ops, next (run ops s) = (run ops s, Done).

End WithTypes.

Arguments t : clear implicits.
Arguments Source : clear implicits.
Arguments Loop : clear implicits.
Arguments Op : clear implicits.
Arguments Item : clear implicits.
Arguments Request : clear implicits.
Arguments ReadResult : clear implicits.

End PushBuffer.

(** ** pOnce *)

Module POnce.

Section WithTypes.

Context {ReturnType Reason : Type}.

(** [type CallStatus]: the [status] field of [currentCall]. *)
Inductive CallStatus :=
| init
| pending
| fulfilled (value : ReturnType)
| rejected (reason : Reason).

(** What one call of [pOnceWrap(...args)] does. *)
Inductive Call :=
| Invokes                        (* runs [fn(...args)], returns its promise *)
| SamePromise                    (* returns [thisCall.promise] *)
| ReturnsValue (value : ReturnType)
| ThrowsReason (reason : Reason).

Definition pOnceWrap (currentCall : CallStatus) : CallStatus * Call :=
  match currentCall with
  | pending => (currentCall, SamePromise)
  | fulfilled value => (currentCall, ReturnsValue value)
  | rejected reason => (currentCall, ThrowsReason reason)
  | init => (pending, Invokes)
  end.

(** [fn(...args)] settled: the two [Object.assign(thisCall, ...)]. *)
Definition settle (outcome : ReturnType + Reason) (thisCall : CallStatus) : CallStatus :=
  match thisCall, outcome with
  | pending, inl value => fulfilled value
  | pending, inr reason => rejected reason
  | _, _ => thisCall
  end.

Definition isStarted (currentCall : CallStatus) : bool :=
  match currentCall with init => false | _ => true end.

Definition isSettled (currentCall : CallStatus) : bool :=
  match currentCall with fulfilled _ | rejected _ => true | _ => false end.

End WithTypes.

Arguments CallStatus : clear implicits.
Arguments Call : clear implicits.

End POnce.

(** ** pOnce with [reset()] *)

Module POnceRef.

Section WithTypes.

Context {ReturnType Reason : Type}.

(** The closure of [pOnce(fn)]: the call objects made so far, the variable
    [currentCall] (which of them it refers to), and the call objects that
    [fn(...args)] was run for, oldest first.  [reset()] makes a new object;
    a call that is running keeps the object it captured in [thisCall].
    A call of the wrapper is one step: [fn] is taken not to call the wrapper
    or [reset()] itself before its first [await], that is, before the
    status is set to pending. *)
Record t := mk {
  calls : list (POnce.CallStatus ReturnType Reason);
  currentCall : nat;
  invoked : list nat
}.

(** [pOnce(fn)] *)
Definition pOnce : t := mk [POnce.init] 0%nat [].

(** What one call of [pOnceWrap(...args)] does; [thisCall] names the object. *)
Inductive Call :=
| Invokes (thisCall : nat)
| SamePromise (thisCall : nat)
| ReturnsValue (value : ReturnType)
| ThrowsReason (reason : Reason).

Definition pOnceWrap (c : t) : t * Call :=
  let thisCall := currentCall c in
  match calls c !! thisCall with
  | Some POnce.pending => (c, SamePromise thisCall)
  | Some (POnce.fulfilled value) => (c, ReturnsValue value)
  | Some (POnce.rejected reason) => (c, ThrowsReason reason)
  | Some POnce.init =>
      (mk (<[thisCall := POnce.pending]> (calls c)) thisCall (invoked c ++ [thisCall]),
       Invokes thisCall)
  | None => (c, SamePromise thisCall)
  end.

(** [fn(...args)] of the call that captured [thisCall] settled, after
    [pOnceWrap] returned: the [Object.assign(thisCall, ...)] of the inner
    function.  (When [fn] throws before its first [await] the status is set
    back to pending with the rejected promise, and no settlement follows.) *)
Definition settle (thisCall : nat) (outcome : ReturnType + Reason) (c : t) : t :=
  match calls c !! thisCall with
  | Some status =>
      mk (<[thisCall := POnce.settle outcome status]> (calls c)) (currentCall c) (invoked c)
  | None => c
  end.

Definition reset (c : t) : t :=
  mk (calls c ++ [POnce.init]) (List.length (calls c)) (invoked c).

Definition isStarted (c : t) : bool :=
  match calls c !! currentCall c with
  | Some status => POnce.isStarted status
  | None => false
  end.

Inductive Event :=
| Called
| Settled (thisCall : nat) (outcome : ReturnType + Reason)
| Reset.

Definition step (e : Event) (c : t) : t :=
  match e with
  | Called => fst (pOnceWrap c)
  | Settled thisCall outcome => settle thisCall outcome c
  | Reset => reset c
  end.

Definition run (es : list Event) (c : t) : t :=
  fold_left (fun c e => step e c) es c.

Definition isReset (e : Event) : bool :=
  match e with Reset => true | _ => false end.

Definition isCalled (e : Event) : bool :=
  match e with Called => true | _ => false end.

(** A settlement of a call that captured one of the first [k] objects. *)
Definition settlesBefore (k : nat) (e : Event) : Prop :=
  match e with
  | Settled thisCall _ => (thisCall < k)%nat
  | _ => False
  end.

(** [currentCall] refers to an object, and [fn] ran only for objects that
    are started and exist (see [sound_run]). *)
Definition sound (c : t) : Prop :=
  (currentCall c < List.length (calls c))%nat
  /\ NoDup (invoked c)
  /\ forall i, i ∈ invoked c ->
       exists status, calls c !! i = Some status /\ POnce.isStarted status = true.

End WithTypes.

Arguments t : clear implicits.
Arguments Call : clear implicits.
Arguments Event : clear implicits.

End POnceRef.

(** ** tryInSequence *)

Module Promises.

Section WithTypes.

Context {T E : Type}.

(** A thrown value: [undefined], an [Error] that the code makes, or an
    error value of the caller. *)
Inductive Thrown := Undefined | PlainError (message : string) | Reason (e : E).

(** What calling and awaiting a task [fn()] gives. *)
Inductive Task := Fulfils (value : T) | Rejects (e : Thrown).

(** The [for] loop; [started] counts the tasks that were called. *)
Fixpoint tryLoop (fns : list Task) (firstError : Thrown) (started : nat)
  : Task * nat :=
  match fns with
  | [] => (Rejects firstError, started)
  | Fulfils value :: _ => (Fulfils value, S started)
  | Rejects e :: rest =>
      tryLoop rest (match firstError with Undefined => e | _ => firstError end)
              (S started)
  end.

(** [tryInSequence(fns)]: how the returned promise settles, and how many
    tasks were called. *)
Definition tryInSequence (fns : list Task) : Task * nat :=
  match fns with
  | [] => (Rejects (PlainError "no tasks"), 0%nat)
  | _ => tryLoop fns Undefined 0%nat
  end.

End WithTypes.

Arguments Thrown : clear implicits.
Arguments Task : clear implicits.

End Promises.

(** ** Signal *)

Module Signal.

(** Modelled from the spec: class [Signal] ([utils/Signal.ts]) is imported by
    Pipeline.ts but is not among the sources.  From sections 4.3 and 9: a fire-once signal
    fires once, and only the first trigger wins; [triggerCount] tells whether
    it has fired.  [fired] lists the arguments the listeners were called
    with.  Whether the promise of [trigger] fulfils or rejects is not part
    of this record: a caller that awaits it gets the outcome in its next
    segment. *)
Record t (Args : Type) := mk { triggerCount : nat; fired : list Args }.
Arguments mk {Args} triggerCount fired.
Arguments triggerCount {Args} _.
Arguments fired {Args} _.

(** Modelled from the spec: [Signal.once()]. *)
Definition once {Args} : t Args := mk 0%nat [].

(** Modelled from the spec: [trigger(...args)] of a fire-once signal; only
    the first trigger fires. *)
Definition trigger {Args} (args : Args) (s : t Args) : t Args :=
  match triggerCount s with
  | O => mk 1%nat (fired s ++ [args])
  | S _ => s
  end.

End Signal.

(** ** Pipeline *)

Module Pipeline.

Section WithTypes.

(** [Gen] stands for [AsyncGenerator<any>]. *)
Context {Gen Error : Type}.

Definition PipelineTransform : Type := Gen -> Gen.

Record PipelineDefinition := mkDefinition {
  source : Gen;
  transforms : list PipelineTransform;
  transformsBefore : list PipelineTransform
}.

(** [new PipelineDefinition(source)] *)
Definition newDefinition (source : Gen) : PipelineDefinition :=
  mkDefinition source [] [].

Definition definition_pipe (fn : PipelineTransform) (d : PipelineDefinition) :=
  mkDefinition (source d) (transforms d ++ [fn]) (transformsBefore d).

Definition definition_pipeBefore (fn : PipelineTransform) (d : PipelineDefinition) :=
  mkDefinition (source d) (transforms d) (transformsBefore d ++ [fn]).

Definition clearTransforms (d : PipelineDefinition) :=
  mkDefinition (source d) [] [].

Definition getTransforms (d : PipelineDefinition) : list PipelineTransform :=
  transformsBefore d ++ transforms d.

(** Where the body of [cleanup(error)] is suspended. *)
Inductive CleanupPoint :=
| NotEntered
| AwaitOnError         (* [await this.onError.trigger(error)] *)
| AwaitSourceReturn    (* [await this.definition.source.return(undefined)] *)
| AwaitBeforeFinally   (* [await this.onBeforeFinally.trigger()] *)
| AwaitFinally         (* [await this.onFinally.trigger(error)] *)
| Returned.

Record t := mk {
  definition : PipelineDefinition;
  isIterating : bool;
  isCleaningUp : bool;
  (* [this.cleanup = pOnce(this.cleanup.bind(this))] *)
  cleanupCall : POnce.CallStatus unit Error;
  cleanupAt : CleanupPoint;
  cleanupError : option Error;     (* argument [error] of the running body *)
  cleanupThrown : option Error;    (* exception travelling through the [finally] blocks *)
  onStart : Signal.t unit;
  onBeforeFinally : Signal.t unit;
  onFinally : Signal.t (option Error);
  onError : list Error;            (* arguments of [onError.trigger] *)
  sourceReturned : nat             (* calls of [source.return(undefined)] *)
}.

Definition set_definition d (p : t) :=
  mk d (isIterating p) (isCleaningUp p) (cleanupCall p) (cleanupAt p) (cleanupError p)
     (cleanupThrown p) (onStart p) (onBeforeFinally p) (onFinally p) (onError p) (sourceReturned p).
Definition set_isIterating b (p : t) :=
  mk (definition p) b (isCleaningUp p) (cleanupCall p) (cleanupAt p) (cleanupError p)
     (cleanupThrown p) (onStart p) (onBeforeFinally p) (onFinally p) (onError p) (sourceReturned p).
Definition set_isCleaningUp b (p : t) :=
  mk (definition p) (isIterating p) b (cleanupCall p) (cleanupAt p) (cleanupError p)
     (cleanupThrown p) (onStart p) (onBeforeFinally p) (onFinally p) (onError p) (sourceReturned p).
Definition set_cleanupCall c (p : t) :=
  mk (definition p) (isIterating p) (isCleaningUp p) c (cleanupAt p) (cleanupError p)
     (cleanupThrown p) (onStart p) (onBeforeFinally p) (onFinally p) (onError p) (sourceReturned p).
Definition set_cleanupAt a (p : t) :=
  mk (definition p) (isIterating p) (isCleaningUp p) (cleanupCall p) a (cleanupError p)
     (cleanupThrown p) (onStart p) (onBeforeFinally p) (onFinally p) (onError p) (sourceReturned p).
Definition set_cleanupError e (p : t) :=
  mk (definition p) (isIterating p) (isCleaningUp p) (cleanupCall p) (cleanupAt p) e
     (cleanupThrown p) (onStart p) (onBeforeFinally p) (onFinally p) (onError p) (sourceReturned p).
Definition set_cleanupThrown e (p : t) :=
  mk (definition p) (isIterating p) (isCleaningUp p) (cleanupCall p) (cleanupAt p) (cleanupError p)
     e (onStart p) (onBeforeFinally p) (onFinally p) (onError p) (sourceReturned p).
Definition set_onStart g (p : t) :=
  mk (definition p) (isIterating p) (isCleaningUp p) (cleanupCall p) (cleanupAt p) (cleanupError p)
     (cleanupThrown p) g (onBeforeFinally p) (onFinally p) (onError p) (sourceReturned p).
Definition set_onBeforeFinally g (p : t) :=
  mk (definition p) (isIterating p) (isCleaningUp p) (cleanupCall p) (cleanupAt p) (cleanupError p)
     (cleanupThrown p) (onStart p) g (onFinally p) (onError p) (sourceReturned p).
Definition set_onFinally g (p : t) :=
  mk (definition p) (isIterating p) (isCleaningUp p) (cleanupCall p) (cleanupAt p) (cleanupError p)
     (cleanupThrown p) (onStart p) (onBeforeFinally p) g (onError p) (sourceReturned p).
Definition set_onError l (p : t) :=
  mk (definition p) (isIterating p) (isCleaningUp p) (cleanupCall p) (cleanupAt p) (cleanupError p)
     (cleanupThrown p) (onStart p) (onBeforeFinally p) (onFinally p) l (sourceReturned p).
Definition set_sourceReturned n (p : t) :=
  mk (definition p) (isIterating p) (isCleaningUp p) (cleanupCall p) (cleanupAt p) (cleanupError p)
     (cleanupThrown p) (onStart p) (onBeforeFinally p) (onFinally p) (onError p) n.

(** [new Pipeline(source, definition?)] *)
Definition new (source : Gen) (definition : option PipelineDefinition) : t :=
  mk (match definition with Some d => d | None => newDefinition source end)
     false false POnce.init NotEntered None None
     Signal.once Signal.once Signal.once [] 0%nat.

Definition alreadyIterating : Exception Error :=
  StreamrClientError "cannot pipe after already iterating: true" PIPELINE_ERROR.

Definition pipe (fn : PipelineTransform) (p : t) : Completion Error t :=
  if isIterating p then Throws alreadyIterating
  else Returns (set_definition (definition_pipe fn (definition p)) p).

Definition pipeBefore (fn : PipelineTransform) (p : t) : Completion Error t :=
  if isIterating p then Throws alreadyIterating
  else Returns (set_definition (definition_pipeBefore fn (definition p)) p).

(** [[Symbol.asyncIterator]()] *)
Definition asyncIterator (p : t) : Completion Error t :=
  if isIterating p then Throws (StreamrClientError "already iterating" PIPELINE_ERROR)
  else Returns p.

(** [transforms.reduce((prev, transform) => transform(prev), source)] in
    [iterate()]: the generator that is iterated. *)
Definition composed (p : t) : Gen :=
  fold_left (fun prev transform => transform prev)
            (getTransforms (definition p)) (source (definition p)).

(** First segment of [iterate()], up to [await this.onStart.trigger()]. *)
Definition iterate_start (p : t) : t :=
  let p := set_isIterating true p in
  set_onStart (Signal.trigger tt (onStart p)) p.

(** The [if (!this.onBeforeFinally.triggerCount) trigger()] of [iterate()],
    [throw()] and [return()]. *)
Definition triggerBeforeFinallyOnce (p : t) : t :=
  match Signal.triggerCount (onBeforeFinally p) with
  | O => set_onBeforeFinally (Signal.trigger tt (onBeforeFinally p)) p
  | S _ => p
  end.

(** The [finally] block of [iterate()]. *)
Definition iterate_finally (p : t) : t :=
  triggerBeforeFinallyOnce (set_isCleaningUp true p).

(** First segment of [return(v)] and of [throw(err)]: nothing when cleaning
    up already, else up to the [await] of the trigger. *)
Definition return_start (p : t) : t :=
  if isCleaningUp p then p else triggerBeforeFinallyOnce p.

Definition throw_start (err : Error) (p : t) : t :=
  if isCleaningUp p then p else triggerBeforeFinallyOnce p.

Definition callSourceReturn (p : t) : t :=
  set_sourceReturned (S (sourceReturned p)) p.

(** The body of [cleanup(error)], entered: up to its first [await]. *)
Definition cleanup_enter (error : option Error) (p : t) : t :=
  let p := set_cleanupError error (set_isCleaningUp true p) in
  match error with
  | Some e => set_cleanupAt AwaitOnError (set_onError (onError p ++ [e]) p)
  | None => set_cleanupAt AwaitSourceReturn (callSourceReturn p)
  end.

(** [this.cleanup(error)]: the wrapper made by [pOnce]. *)
Definition cleanup (error : option Error) (p : t) : t :=
  let '(c, call) := POnce.pOnceWrap (cleanupCall p) in
  let p := set_cleanupCall c p in
  match call with
  | POnce.Invokes => cleanup_enter error p
  | _ => p
  end.

Definition orElse (a b : option Error) : option Error :=
  match a with Some _ => a | None => b end.

(** The awaited promise of the body settled, rejected with [thrown] or
    fulfilled; the body runs to its next [await], through the [finally]
    blocks, or to its end. *)
Definition cleanup_continue (thrown : option Error) (p : t) : t :=
  match cleanupAt p with
  | AwaitOnError =>
      set_cleanupAt AwaitSourceReturn (callSourceReturn (set_cleanupThrown thrown p))
  | AwaitSourceReturn =>
      let p := set_cleanupThrown (orElse thrown (cleanupThrown p)) p in
      set_cleanupAt AwaitBeforeFinally
        (set_onBeforeFinally (Signal.trigger tt (onBeforeFinally p)) p)
  | AwaitBeforeFinally =>
      match thrown with
      | Some e =>
          (* the rejection leaves the [finally] block *)
          set_cleanupAt Returned
            (set_cleanupCall (POnce.settle (inr e) (cleanupCall p))
               (set_cleanupThrown thrown p))
      | None =>
          set_cleanupAt AwaitFinally
            (set_onFinally (Signal.trigger (cleanupError p) (onFinally p)) p)
      end
  | AwaitFinally =>
      match thrown with
      | Some e =>
          set_cleanupAt Returned
            (set_cleanupCall (POnce.settle (inr e) (cleanupCall p))
               (set_cleanupThrown thrown p))
      | None =>
          let p := set_definition (clearTransforms (definition p)) p in
          let outcome := match cleanupThrown p with
                         | Some e => inr e
                         | None => inl tt
                         end in
          set_cleanupAt Returned (set_cleanupCall (POnce.settle outcome (cleanupCall p)) p)
      end
  | NotEntered | Returned => p
  end.

(** The synchronous segments that take part in the teardown of a pipeline. *)
Inductive Event :=
| Cleanup (error : option Error)     (* a call of [this.cleanup(error)] *)
| Continue (thrown : option Error)   (* the body of [cleanup] goes on *)
| IterateStart
| IterateFinally
| ReturnStart
| ThrowStart (err : Error).

Definition step (e : Event) (p : t) : t :=
  match e with
  | Cleanup error => cleanup error p
  | Continue thrown => cleanup_continue thrown p
  | IterateStart => iterate_start p
  | IterateFinally => iterate_finally p
  | ReturnStart => return_start p
  | ThrowStart err => throw_start err p
  end.

Definition run (es : list Event) (p : t) : t :=
  fold_left (fun p e => step e p) es p.

(** Calls of [pipe] and [pipeBefore] before iteration starts. *)
Inductive Piping :=
| Pipe (fn : PipelineTransform)
| PipeBefore (fn : PipelineTransform).

Definition piping (c : Piping) (p : t) : Completion Error t :=
  match c with
  | Pipe fn => pipe fn p
  | PipeBefore fn => pipeBefore fn p
  end.

Fixpoint pipings (cs : list Piping) (p : t) : Completion Error t :=
  match cs with
  | [] => Returns p
  | c :: rest =>
      match piping c p with
      | Returns p' => pipings rest p'
      | Throws x => Throws x
      end
  end.

(** The stages given to [pipe], and those given to [pipeBefore], in call order. *)
Fixpoint stages (cs : list Piping) : list PipelineTransform :=
  match cs with
  | [] => []
  | Pipe fn :: rest => fn :: stages rest
  | PipeBefore _ :: rest => stages rest
  end.

Fixpoint stagesBefore (cs : list Piping) : list PipelineTransform :=
  match cs with
  | [] => []
  | Pipe _ :: rest => stagesBefore rest
  | PipeBefore fn :: rest => fn :: stagesBefore rest
  end.

Definition through (fns : list PipelineTransform) (g : Gen) : Gen :=
  fold_left (fun prev transform => transform prev) fns g.

(** *** Invariant *)

Definition unfired {Args} (g : Signal.t Args) : Prop := g = Signal.mk 0%nat [].

Definition firedWith {Args} (args : Args) (g : Signal.t Args) : Prop :=
  g = Signal.mk 1%nat [args].

(** How far [cleanup] is, what [pOnce] recorded and what the two signals
    did agree in every state of a pipeline (see [tidy_run]). *)
Definition tidy (p : t) : Prop :=
  (unfired (onBeforeFinally p) \/ firedWith tt (onBeforeFinally p))
  /\ match cleanupAt p with
     | NotEntered =>
         cleanupCall p = POnce.init /\ unfired (onFinally p)
     | AwaitOnError | AwaitSourceReturn =>
         cleanupCall p = POnce.pending /\ unfired (onFinally p)
     | AwaitBeforeFinally =>
         cleanupCall p = POnce.pending /\ unfired (onFinally p)
         /\ firedWith tt (onBeforeFinally p)
     | AwaitFinally =>
         cleanupCall p = POnce.pending /\ firedWith (cleanupError p) (onFinally p)
         /\ firedWith tt (onBeforeFinally p)
     | Returned =>
         POnce.isSettled (cleanupCall p) = true
         /\ (unfired (onFinally p) \/ firedWith (cleanupError p) (onFinally p))
         /\ firedWith tt (onBeforeFinally p)
     end.

(** What [cleanup] has done to the source and to [onError] agrees with how
    far it is (see [closing_run]). *)
Definition closing (p : t) : Prop :=
  match cleanupAt p with
  | NotEntered => sourceReturned p = 0%nat /\ onError p = []
  | AwaitOnError =>
      sourceReturned p = 0%nat /\ exists e, cleanupError p = Some e /\ onError p = [e]
  | AwaitSourceReturn | AwaitBeforeFinally | AwaitFinally | Returned =>
      sourceReturned p = 1%nat
      /\ onError p = match cleanupError p with Some e => [e] | None => [] end
  end.

(** The event is not a rejection of the promise of [onBeforeFinally.trigger()]
    that [cleanup] awaits; likewise for [onFinally.trigger(error)]. *)
Definition beforeFinallyFulfils (e : Event) (p : t) : bool :=
  match e, cleanupAt p with
  | Continue (Some _), AwaitBeforeFinally => false
  | _, _ => true
  end.

Definition finallyFulfils (e : Event) (p : t) : bool :=
  match e, cleanupAt p with
  | Continue (Some _), AwaitFinally => false
  | _, _ => true
  end.

(** [ok] holds of every event of the run, in the state it happens in. *)
Fixpoint always (ok : Event -> t -> bool) (es : list Event) (p : t) : bool :=
  match es with
  | [] => true
  | e :: rest => ok e p && always ok rest (step e p)
  end.


Definition cleared (p : t) : Prop :=
  cleanupAt p = Returned -> getTransforms (definition p) = [].

(** The argument of the first call of [this.cleanup] in a run. *)
Fixpoint firstCleanup (es : list Event) : option (option Error) :=
  match es with
  | [] => None
  | Cleanup error :: _ => Some error
  | _ :: rest => firstCleanup rest
  end.

End WithTypes.

Arguments t : clear implicits.
Arguments PipelineDefinition : clear implicits.
Arguments Event : clear implicits.
Arguments Piping : clear implicits.

End Pipeline.

(** ** OrderingUtil *)

Module OrderingUtil.

(** The part of a [StreamMessage] that ordering reads: the chain key
    ([getPublisherId()], [getMsgChainId()]) and the sequence of the message. *)
Record StreamMessage := mkMessage {
  getPublisherId : string;
  getMsgChainId : string;
  timestamp : Z;
  sequenceNumber : Z
}.

(** [EthereumAddress] is a branded string: [0x] and forty hexadecimal digits. *)
Definition isHexDigit (c : ascii) : bool :=
  let n := nat_of_ascii c in
  ((48 <=? n) && (n <=? 57) || (65 <=? n) && (n <=? 70) || (97 <=? n) && (n <=? 102))%nat.

Fixpoint allHex (s : string) : bool :=
  match s with
  | EmptyString => true
  | String c rest => isHexDigit c && allHex rest
  end.

Definition isEthereumAddress (s : string) : bool :=
  match s with
  | String "0"%char (String "x"%char digits) => (String.length digits =? 40)%nat && allHex digits
  | _ => false
  end.

(** Modelled from the spec: class [OrderedMsgChain] ([./OrderedMsgChain.ts])
    is constructed and called by OrderingUtil.ts but is not among the sources.
    From section 4.4: a chain belongs to one chain key and takes the messages
    given to [add] and to [markMessageExplicitly]; a gap request is made on
    deadline expiry while attemptsMade < maxGapRequests; [disable()] sets
    maxGapRequests to 0.  [defaultMaxGapRequests] is what the constructor puts
    in place of an [undefined] argument. *)
Record OrderedMsgChain := mkChain {
  publisherId : string;
  msgChainId : string;
  maxGapRequests : Z;
  added : list StreamMessage;      (* arguments of [add], oldest first *)
  marked : list StreamMessage      (* arguments of [markMessageExplicitly] *)
}.

(** Modelled from the spec: [new OrderedMsgChain(publisherId, msgChainId,
    inOrderHandler, gapHandler, propagationTimeout, resendTimeout,
    maxGapRequests)]. *)
Definition newChain (defaultMaxGapRequests : Z) (publisherId msgChainId : string)
           (maxGapRequests : option Z) : OrderedMsgChain :=
  mkChain publisherId msgChainId
          (match maxGapRequests with Some n => n | None => defaultMaxGapRequests end)
          [] [].

(** Modelled from the spec: [chain.add(message)]; the ordering inside the
    chain is not part of this model. *)
Definition chain_add (m : StreamMessage) (c : OrderedMsgChain) : OrderedMsgChain :=
  mkChain (publisherId c) (msgChainId c) (maxGapRequests c) (added c ++ [m]) (marked c).

(** Modelled from the spec: [chain.markMessageExplicitly(message)]. *)
Definition chain_markMessageExplicitly (m : StreamMessage) (c : OrderedMsgChain) :=
  mkChain (publisherId c) (msgChainId c) (maxGapRequests c) (added c) (marked c ++ [m]).

(** Modelled from the spec: [chain.disable()] sets maxGapRequests to 0. *)
Definition chain_disable (c : OrderedMsgChain) : OrderedMsgChain :=
  mkChain (publisherId c) (msgChainId c) 0 (added c) (marked c).

(** Modelled from the spec: on deadline expiry after [attemptsMade]
    requests, one more is made while attemptsMade < maxGapRequests. *)
Definition requestsGap (attemptsMade : nat) (c : OrderedMsgChain) : bool :=
  Z.of_nat attemptsMade <? maxGapRequests c.

(** A message was given to the chain, by either entry. *)
Definition received (m : StreamMessage) (c : OrderedMsgChain) : Prop :=
  m ∈ added c ∨ m ∈ marked c.

(** Class [OrderingUtil]: the fields that the calls below read or write. *)
Record t := mk {
  propagationTimeout : option Z;
  resendTimeout : option Z;
  maxGapRequests_ : option Z;               (* [this.maxGapRequests] *)
  orderedChains : gmap string OrderedMsgChain;
  defaultMaxGapRequests : Z                 (* constant of [OrderedMsgChain] *)
}.

Definition set_orderedChains (chains : gmap string OrderedMsgChain) (u : t) : t :=
  mk (propagationTimeout u) (resendTimeout u) (maxGapRequests_ u) chains
     (defaultMaxGapRequests u).

(** [new OrderingUtil(inOrderHandler, gapHandler, propagationTimeout?,
    resendTimeout?, maxGapRequests?)] *)
Definition new (defaultMax : Z) (propagationTimeout resendTimeout maxGapRequests : option Z) : t :=
  mk propagationTimeout resendTimeout maxGapRequests ∅ defaultMax.

(** [const key = publisherId + msgChainId] *)
Definition chainKey (publisherId msgChainId : string) : string :=
  publisherId +:+ msgChainId.

Definition keyOf (m : StreamMessage) : string :=
  chainKey (getPublisherId m) (getMsgChainId m).

(** [getChain(publisherId, msgChainId)]: the chain object is named by the
    key of the property that holds it. *)
Definition getChain (publisherId msgChainId : string) (u : t) : t * string :=
  let key := chainKey publisherId msgChainId in
  match orderedChains u !! key with
  | None =>
      let chain := newChain (defaultMaxGapRequests u) publisherId msgChainId
                            (maxGapRequests_ u) in
      (set_orderedChains (<[key := chain]> (orderedChains u)) u, key)
  | Some _ => (u, key)
  end.

Definition add (unorderedStreamMessage : StreamMessage) (u : t) : t :=
  let '(u, chain) := getChain (getPublisherId unorderedStreamMessage)
                              (getMsgChainId unorderedStreamMessage) u in
  set_orderedChains (alter (chain_add unorderedStreamMessage) chain (orderedChains u)) u.

Definition markMessageExplicitly (streamMessage : StreamMessage) (u : t) : t :=
  let '(u, chain) := getChain (getPublisherId streamMessage)
                              (getMsgChainId streamMessage) u in
  set_orderedChains
    (alter (chain_markMessageExplicitly streamMessage) chain (orderedChains u)) u.

Definition disable (u : t) : t :=
  mk (propagationTimeout u) (resendTimeout u) (Some 0)
     (chain_disable <$> orderedChains u) (defaultMaxGapRequests u).

Inductive Op :=
| Add (m : StreamMessage)
| MarkMessageExplicitly (m : StreamMessage)
| Disable.

Definition step (op : Op) (u : t) : t :=
  match op with
  | Add m => add m u
  | MarkMessageExplicitly m => markMessageExplicitly m u
  | Disable => disable u
  end.

Definition run (ops : list Op) (u : t) : t :=
  fold_left (fun u op => step op u) ops u.

(** The messages of a run, and those of them with the chain key of [m]. *)
Definition message (op : Op) : option StreamMessage :=
  match op with
  | Add m | MarkMessageExplicitly m => Some m
  | Disable => None
  end.

Definition messages (ops : list Op) : list StreamMessage :=
  omap message ops.

Definition wellFormed (ops : list Op) : Prop :=
  ∀ m, m ∈ messages ops → isEthereumAddress (getPublisherId m) = true.

Definition sameKeyPair (m1 m2 : StreamMessage) : Prop :=
  (getPublisherId m1, getMsgChainId m1) = (getPublisherId m2, getMsgChainId m2).

(** Both messages were given to one and the same chain object. *)
Definition sameChain (u : t) (m1 m2 : StreamMessage) : Prop :=
  ∃ key chain, orderedChains u !! key = Some chain
               ∧ received m1 chain ∧ received m2 chain.

(** The chain that a call of [add] or [markMessageExplicitly] gets for [m]. *)
Definition gotChain (m : StreamMessage) (u : t) : OrderedMsgChain :=
  match orderedChains u !! keyOf m with
  | Some chain => chain
  | None => newChain (defaultMaxGapRequests u) (getPublisherId m) (getMsgChainId m)
                     (maxGapRequests_ u)
  end.

(** Each chain holds the messages of its key, and each message of the run
    is held by the chain of its key (see [routed_run]). *)
Definition routed (ms : list StreamMessage) (u : t) : Prop :=
  (∀ key chain, orderedChains u !! key = Some chain →
     chainKey (publisherId chain) (msgChainId chain) = key
     ∧ (∃ m, m ∈ ms ∧ keyOf m = key)
     ∧ ∀ m, received m chain → m ∈ ms ∧ keyOf m = key)
  ∧ (∀ m, m ∈ ms → ∃ chain, orderedChains u !! keyOf m = Some chain ∧ received m chain).

(** The arguments of the calls of [add], and of [markMessageExplicitly],
    in a run. *)
Definition adds (ops : list Op) : list StreamMessage :=
  omap (fun op => match op with Add m => Some m | _ => None end) ops.

Definition marks (ops : list Op) : list StreamMessage :=
  omap (fun op => match op with MarkMessageExplicitly m => Some m | _ => None end) ops.

(** The messages of [ms] with chain key [key], in their order. *)
Definition withKey (key : string) (ms : list StreamMessage) : list StreamMessage :=
  List.filter (fun m => bool_decide (keyOf m = key)) ms.

(** Every chain holds the messages of its key in arrival order (see
    [ordered_run]). *)
Definition ordered (as_ ms : list StreamMessage) (u : t) : Prop :=
  forall key,
    match orderedChains u !! key with
    | Some chain => added chain = withKey key as_ /\ marked chain = withKey key ms
    | None => withKey key as_ = [] /\ withKey key ms = []
    end.

(** Every chain was constructed with the publisher id and the chain id of
    one of the messages (see [founded_run]). *)
Definition founded (ms : list StreamMessage) (u : t) : Prop :=
  forall key chain, orderedChains u !! key = Some chain ->
    exists m, m ∈ ms /\ publisherId chain = getPublisherId m
              /\ msgChainId chain = getMsgChainId m.

(** Gap requests are off, here and in every chain. *)
Definition disabled (u : t) : Prop :=
  maxGapRequests_ u = Some 0
  ∧ ∀ key chain, orderedChains u !! key = Some chain → maxGapRequests chain = 0.

End OrderingUtil.

(** ** Values for the concrete runs *)

Module Examples.

(** Buffers of numbers, with errors named by a string. *)
Definition item (x : nat) : PushBuffer.Item nat string := PushBuffer.Value x.

Definition alice : string := "0x00000000000000000000000000000000000000a1".
Definition bob : string := "0x00000000000000000000000000000000000000b2".

Definition m1 : OrderingUtil.StreamMessage := OrderingUtil.mkMessage alice "chain" 1 0.
Definition m2 : OrderingUtil.StreamMessage := OrderingUtil.mkMessage alice "chain" 2 0.
Definition m3 : OrderingUtil.StreamMessage := OrderingUtil.mkMessage bob "chain" 1 0.

End Examples.

(** * Properties *)

(** ** Gate *)

Lemma Gate_open_locked g : Gate.isLocked g = true -> Gate.open g = g.
Proof. unfold Gate.open. now intros ->. Qed.

Lemma Gate_close_locked g : Gate.isLocked g = true -> Gate.close g = g.
Proof. unfold Gate.close. now intros ->. Qed.

Lemma Gate_lock_locked g : Gate.isLocked g = true -> Gate.lock g = g.
Proof. unfold Gate.lock. now intros ->. Qed.

Lemma Gate_isLocked_lock g : Gate.isLocked (Gate.lock g) = true.
Proof. unfold Gate.lock. destruct (Gate.isLocked g) eqn:E; auto. Qed.

Lemma Gate_isLocked_open g : Gate.isLocked (Gate.open g) = Gate.isLocked g.
Proof. unfold Gate.open. destruct (Gate.isLocked g) eqn:E; auto. Qed.

Lemma Gate_isLocked_close g : Gate.isLocked (Gate.close g) = Gate.isLocked g.
Proof. unfold Gate.close. destruct (Gate.isLocked g) eqn:E; auto. Qed.

Lemma Gate_isLocked_setOpenState b g :
  Gate.isLocked (Gate.setOpenState b g) = Gate.isLocked g.
Proof. destruct b; [apply Gate_isLocked_open | apply Gate_isLocked_close]. Qed.

Lemma Gate_isLocked_check g : Gate.isLocked (fst (Gate.check g)) = Gate.isLocked g.
Proof. unfold Gate.check, Gate.isLocked. destruct g as [[] w]; reflexivity. Qed.

(** ** PushBuffer *)

Section PushBufferFacts.

Context {T Error : Type}.
Implicit Types (s : PushBuffer.t T Error) (v : PushBuffer.Item T Error).

Import PushBuffer.

Ltac pb_unfold :=
  cbv [request next return_ throw outer inner afterInner epilogue finally
    end_ endWrite lock clear updateWriteGate isFull isDone isWritable isAwaiting
    pushPending length set_buffer set_writeGate set_readGate set_error
    set_isIterating set_point set_queue
    buffer bufferSize writeGate readGate error isIterating point queue
    Gate.setOpenState Gate.open Gate.close Gate.lock Gate.check Gate.release
    Gate.isLocked Gate.state Gate.waiter Gate.wake Gate.attended fst snd negb andb orb] in *.

Ltac pb_cases :=
  repeat match goal with
         | |- context [Z.leb ?a ?b] => destruct (Z.leb_spec a b)
         | |- context [Z.ltb ?a ?b] => destruct (Z.ltb_spec a b)
         | |- context [match ?x with _ => _ end] => is_var x; destruct x
         end; cbn in *.

Ltac pb_crush s :=
  destruct s as [? ? [? ?] [? ?] ? ? ? ?]; pb_unfold; pb_cases.

(** *** [push] *)

Lemma push_writable v s :
  isWritable s = true ->
  buffer (fst (push v s)) = buffer s ++ [v]
  /\ bufferSize (fst (push v s)) = bufferSize s
  /\ isWritable (fst (push v s)) = true
  /\ snd (push v s) = (if Z.of_nat (S (length s)) <? bufferSize s then Some true else None)
  /\ pushPending (fst (push v s)) = negb (Z.of_nat (S (length s)) <? bufferSize s).
Proof.
  intros W. unfold push. rewrite W. cbn [negb].
  unfold isWritable in W. apply andb_true_iff in W as [W1 W2].
  apply negb_true_iff in W1, W2.
  destruct s as [b n [ws ww] [rs rw] e it p q].
  unfold Gate.isLocked in *. cbn in *.
  unfold updateWriteGate, isFull, length, Gate.setOpenState, Gate.open, Gate.close,
    Gate.isLocked, isWritable, pushPending.
  cbn. rewrite length_app. cbn [List.length].
  replace (List.length b + 1)%nat with (S (List.length b)) by lia.
  destruct (Z.leb_spec n (Z.of_nat (S (List.length b))));
    destruct (Z.ltb_spec (Z.of_nat (S (List.length b))) n); try lia;
    destruct ws, rs; try discriminate; cbn; destruct ww; auto.
Qed.

Lemma push_not_writable v s : isWritable s = false -> push v s = (s, Some false).
Proof. intros W. unfold push. now rewrite W. Qed.

Lemma pushAll_cons v vs s :
  pushAll (v :: vs) s =
  (fst (pushAll vs (fst (push v s))), snd (push v s) :: snd (pushAll vs (fst (push v s)))).
Proof.
  cbn [pushAll]. destruct (push v s) as [s1 r]. cbn [fst snd].
  now destruct (pushAll vs s1).
Qed.

Lemma pushAll_app vs ws s :
  pushAll (vs ++ ws) s =
  (fst (pushAll ws (fst (pushAll vs s))), snd (pushAll vs s) ++ snd (pushAll ws (fst (pushAll vs s)))).
Proof.
  revert s. induction vs as [|v vs IH]; intros s.
  - cbn. now destruct (pushAll ws s).
  - change ((v :: vs) ++ ws) with (v :: (vs ++ ws)).
    rewrite !pushAll_cons. cbn [fst snd]. now rewrite IH.
Qed.

(** Pushes that leave the buffer below its size all resolve true. *)
Lemma pushAll_below vs : forall s,
  isWritable s = true ->
  Z.of_nat (length s + List.length vs) < bufferSize s ->
  snd (pushAll vs s) = repeat (Some true) (List.length vs)
  /\ buffer (fst (pushAll vs s)) = buffer s ++ vs
  /\ bufferSize (fst (pushAll vs s)) = bufferSize s
  /\ isWritable (fst (pushAll vs s)) = true.
Proof.
  induction vs as [|v vs IH]; intros s W L.
  - cbn. now rewrite app_nil_r.
  - rewrite pushAll_cons. cbn [fst snd List.length repeat] in *.
    destruct (push_writable v s W) as (Hb & Hn & Hw & Hr & _).
    destruct (IH (fst (push v s))) as (IH1 & IH2 & IH3 & IH4); auto.
    { unfold length in *. rewrite Hb, Hn, length_app. cbn [List.length]. lia. }
    rewrite Hr, IH1, IH2, IH3, Hb, Hn, <- app_assoc.
    destruct (Z.ltb_spec (Z.of_nat (S (length s))) (bufferSize s)); [auto | lia].
Qed.

Lemma new_Returns (n : Z) s :
  new n = Returns s ->
  0 < n /\ s = mk [] n (Gate.mk Gate.Closed Gate.Idle) (Gate.mk Gate.Closed Gate.Idle)
                 None false SuspendedStart [].
Proof.
  unfold new. destruct (Z.ltb_spec 0 n); cbn; [|discriminate].
  destruct (n <=? MAX_SAFE_INTEGER); cbn; [|discriminate].
  intros [= <-]. auto.
Qed.

(** A read from a full writable buffer resolves the pending [push]. *)
Lemma next_resolves_push s :
  point s = SuspendedStart \/ point s = SuspendedYield ->
  isWritable s = true -> 0 < bufferSize s ->
  Z.of_nat (length s) = bufferSize s ->
  pushPending (fst (next s)) = false.
Proof.
  intros P W N L. destruct s as [b n [ws ww] [rs rw] e it p q].
  cbn in P, N, L. unfold isWritable, Gate.isLocked in W. cbn in W.
  destruct b as [|v b]; [cbn in L; lia|].
  assert (H : (n <=? Z.of_nat (List.length b)) = false).
  { apply Z.leb_gt. cbn [length buffer List.length] in L. lia. }
  destruct P as [-> | ->]; destruct ws, rs; try discriminate;
    pb_unfold; rewrite H; destruct v, ww; reflexivity.
Qed.

(** *** What the generator leaves behind *)

Lemma ran_epilogue s : ran (fst (epilogue s)).
Proof. unfold ran. pb_crush s; intuition congruence. Qed.

Lemma ran_inner s : ran (fst (inner s)).
Proof. unfold ran. pb_crush s; intuition congruence. Qed.

Lemma ran_outer s : ran (fst (outer s)).
Proof. unfold ran. pb_crush s; intuition congruence. Qed.

Lemma ran_finally s : ran (finally s).
Proof. unfold ran. pb_crush s; intuition congruence. Qed.

Lemma ran_consistent s : ran s -> consistent s.
Proof. unfold ran, consistent. intuition. Qed.

Lemma consistent_set_queue q s : consistent s -> consistent (set_queue q s).
Proof. unfold consistent. cbn. auto. Qed.

Lemma consistent_request r s : consistent s -> consistent (fst (request r s)).
Proof.
  intros C. unfold request.
  destruct (point s) eqn:P; destruct r; cbn [fst];
    try (apply ran_consistent;
         first [apply ran_outer | apply ran_inner | apply ran_finally]);
    try assumption.
  all: unfold consistent in *; cbn; rewrite ?P in *;
    intuition (try congruence).
Qed.

Lemma consistent_drain q : forall s acc,
  consistent s -> consistent (fst (drain q s acc)).
Proof.
  induction q as [|r q IH]; intros s acc C; cbn [drain].
  - now apply consistent_set_queue.
  - pose proof (consistent_request r (set_queue [] s) (consistent_set_queue [] s C)) as C1.
    destruct (request r (set_queue [] s)) as [s1 res]. cbn [fst] in C1.
    destruct (isAwaiting s1).
    + now apply consistent_set_queue.
    + now apply IH.
Qed.

Lemma consistent_resume s s' rs :
  consistent s -> resume s = Some (s', rs) -> consistent s'.
Proof.
  intros C. unfold resume.
  destruct (point s); try discriminate.
  destruct (Gate.waiter (readGate s)) as [| |ok]; try discriminate.
  set (s0 := set_readGate (Gate.release (readGate s)) s).
  assert (R : ran (fst (if ok then outer s0 else epilogue s0))).
  { destruct ok; [apply ran_outer | apply ran_epilogue]. }
  destruct (if ok then outer s0 else epilogue s0) as [s1 res]. cbn [fst] in R.
  destruct (isAwaiting s1).
  - intros [= <- <-]. now apply ran_consistent.
  - intros [= H]. apply ran_consistent in R.
    pose proof (consistent_drain (queue s) s1 [res] R) as D.
    unfold s0 in H. cbn [queue set_readGate] in H. rewrite H in D. exact D.
Qed.

Lemma consistent_push v s : consistent s -> consistent (fst (push v s)).
Proof.
  unfold consistent, push. pb_crush s; intuition (try congruence).
Qed.

Lemma consistent_end err s : consistent s -> consistent (end_ err s).
Proof. unfold consistent. destruct err; pb_crush s; intuition (try congruence). Qed.

Lemma consistent_endWrite err s : consistent s -> consistent (endWrite err s).
Proof. unfold consistent. destruct err; pb_crush s; intuition (try congruence). Qed.

Lemma consistent_lock s : consistent s -> consistent (lock s).
Proof. unfold consistent. pb_crush s; intuition (try congruence). Qed.

Lemma consistent_clear s : consistent s -> consistent (clear s).
Proof. unfold consistent. pb_crush s; intuition (try congruence). Qed.

Lemma consistent_step op s : consistent s -> consistent (step op s).
Proof.
  intros C. destruct op; cbn [step].
  - now apply consistent_push.
  - now apply consistent_request.
  - destruct (resume s) as [[s' rs]|] eqn:R; [eapply consistent_resume; eauto | auto].
  - apply consistent_request. now apply consistent_end.
  - apply consistent_request. now apply consistent_endWrite.
  - now apply consistent_end.
  - now apply consistent_endWrite.
  - now apply consistent_lock.
  - now apply consistent_clear.
Qed.

Lemma consistent_run ops : forall s, consistent s -> consistent (run ops s).
Proof.
  induction ops as [|op ops IH]; intros s C; cbn; [auto|].
  apply IH. now apply consistent_step.
Qed.

Lemma consistent_new (n : Z) s : new n = Returns s -> consistent s.
Proof.
  intros H. apply new_Returns in H as [_ ->]. unfold consistent. cbn.
  intuition congruence.
Qed.

(** *** A completed generator stays completed *)

Lemma request_Completed r s :
  point s = Completed ->
  request r s = (s, settledLate r).
Proof. intros P. unfold request. rewrite P. now destruct r. Qed.

Lemma point_endWrite err s : point (endWrite err s) = point s.
Proof. unfold endWrite. now destruct err, (error s). Qed.

Lemma point_end err s : point (end_ err s) = point s.
Proof. now destruct err. Qed.

Lemma step_Completed op s : point s = Completed -> point (step op s) = Completed.
Proof.
  intros P. destruct op; cbn [step].
  - unfold push. destruct (negb (isWritable s)); [auto|].
    cbn. now destruct (Gate.check _).
  - unfold next. now rewrite request_Completed by exact P.
  - unfold resume. now rewrite P.
  - unfold return_. now rewrite request_Completed by now rewrite point_end.
  - unfold throw. rewrite request_Completed by now rewrite point_endWrite.
    cbn [fst]. now rewrite point_endWrite.
  - now rewrite point_end.
  - now rewrite point_endWrite.
  - exact P.
  - exact P.
Qed.

Lemma run_Completed ops : forall s, point s = Completed -> point (run ops s) = Completed.
Proof.
  induction ops as [|op ops IH]; intros s P; cbn; [auto|].
  apply IH. now apply step_Completed.
Qed.

Lemma drain_Completed q : forall s acc,
  point s = Completed ->
  drain q s acc =
  (set_queue [] s,
   acc ++ map settledLate q).
Proof.
  induction q as [|r q IH]; intros s acc P; cbn [drain map].
  - now rewrite app_nil_r.
  - rewrite request_Completed by exact P.
    unfold isAwaiting. cbn [point set_queue]. rewrite P.
    rewrite IH by exact P. cbn. now rewrite <- app_assoc.
Qed.

(** *** The bound on the buffered length *)

Lemma bounded_epilogue s : bounded s -> bounded (fst (epilogue s)).
Proof. unfold bounded. pb_crush s; intuition (try lia; try discriminate). Qed.

Lemma bounded_finally s : bounded s -> bounded (finally s).
Proof. unfold bounded. pb_crush s; intuition (try lia; try discriminate). Qed.

Lemma bounded_inner s : bounded s -> bounded (fst (inner s)).
Proof. unfold bounded. pb_crush s; intuition (try lia; try discriminate). Qed.

Lemma bounded_outer s : bounded s -> bounded (fst (outer s)).
Proof. unfold bounded. pb_crush s; intuition (try lia; try discriminate). Qed.

Lemma bounded_request r s : bounded s -> bounded (fst (request r s)).
Proof.
  intros B. unfold request.
  destruct (point s); destruct r; cbn [fst];
    first [ apply bounded_outer | apply bounded_inner | apply bounded_finally | idtac ];
    exact B.
Qed.

Lemma bounded_set_queue q s : bounded s -> bounded (set_queue q s).
Proof. intros B; exact B. Qed.

Lemma bounded_drain q : forall s acc, bounded s -> bounded (fst (drain q s acc)).
Proof.
  induction q as [|r q IH]; intros s acc B; cbn [drain].
  - exact B.
  - pose proof (bounded_request r (set_queue [] s) B) as B1.
    destruct (request r (set_queue [] s)) as [s1 res]. cbn [fst] in B1.
    destruct (isAwaiting s1); [exact B1 | now apply IH].
Qed.

Lemma bounded_resume s s' rs : bounded s -> resume s = Some (s', rs) -> bounded s'.
Proof.
  intros B. unfold resume.
  destruct (point s); try discriminate.
  destruct (Gate.waiter (readGate s)) as [| |ok] eqn:W; try discriminate.
  set (s0 := set_readGate (Gate.release (readGate s)) s).
  assert (B0 : bounded s0).
  { unfold s0. clear - B. unfold bounded in *. pb_crush s; intuition (try lia; try discriminate). }
  assert (R : bounded (fst (if ok then outer s0 else epilogue s0))).
  { destruct ok; [now apply bounded_outer | now apply bounded_epilogue]. }
  destruct (if ok then outer s0 else epilogue s0) as [s1 res]. cbn [fst] in R.
  destruct (isAwaiting s1).
  - now intros [= <- <-].
  - intros [= H].
    pose proof (bounded_drain (queue s) s1 [res] R) as D.
    unfold s0 in H. cbn [queue set_readGate] in H. rewrite H in D. exact D.
Qed.

Lemma bounded_end err s : bounded s -> bounded (end_ err s).
Proof. unfold bounded. destruct err; pb_crush s; intuition (try lia; try discriminate). Qed.

Lemma bounded_endWrite err s : bounded s -> bounded (endWrite err s).
Proof. unfold bounded. destruct err; pb_crush s; intuition (try lia; try discriminate). Qed.

Lemma bounded_lock s : bounded s -> bounded (lock s).
Proof. unfold bounded. pb_crush s; intuition (try lia; try discriminate). Qed.

Lemma bounded_clear s : bounded s -> bounded (clear s).
Proof. unfold bounded. pb_crush s; intuition (try lia; try discriminate). Qed.

(** A [push] that was awaited keeps the bound. *)
Lemma bounded_push v s :
  bounded s -> pushPending s = false -> bounded (fst (push v s)).
Proof.
  intros (N & L & F) Pn.
  destruct (isWritable s) eqn:W.
  - destruct (push_writable v s W) as (Hb & Hn & Hw & _ & Hp).
    specialize (F eq_refl Pn).
    unfold bounded, length in *. rewrite Hb, Hn, Hp, length_app. cbn [List.length].
    repeat split; try lia.
    intros _ Hlt. apply negb_false_iff, Z.ltb_lt in Hlt. lia.
  - rewrite push_not_writable by exact W. cbn [fst]. unfold bounded. rewrite W.
    repeat split; auto; discriminate.
Qed.

Lemma bounded_run ops : forall s,
  bounded s -> awaitsPushes ops s = true -> bounded (run ops s).
Proof.
  induction ops as [|op ops IH]; intros s B A; cbn [run fold_left]; [exact B|].
  cbn [awaitsPushes] in A. apply andb_true_iff in A as [G A].
  apply IH; [|exact A].
  destruct op; cbn [step].
  - apply bounded_push; [exact B | now apply negb_true_iff in G].
  - now apply bounded_request.
  - destruct (resume s) as [[s' rs]|] eqn:R; [eapply bounded_resume; eauto | exact B].
  - apply bounded_request. now apply bounded_end.
  - apply bounded_request. now apply bounded_endWrite.
  - now apply bounded_end.
  - now apply bounded_endWrite.
  - now apply bounded_lock.
  - now apply bounded_clear.
Qed.

Lemma bounded_new (n : Z) s : new n = Returns s -> bounded s /\ bufferSize s = n.
Proof.
  intros H. apply new_Returns in H as [N ->]. unfold bounded. cbn.
  repeat split; auto; try lia.
Qed.


(** *** Pushing up to the size of the buffer *)

Lemma point_push v s : point (fst (push v s)) = point s.
Proof.
  unfold push. destruct (negb (isWritable s)); [auto|].
  cbn. now destruct (Gate.check _).
Qed.

Lemma point_pushAll vs : forall s, point (fst (pushAll vs s)) = point s.
Proof.
  induction vs as [|v vs IH]; intros s; [auto|].
  rewrite pushAll_cons. cbn [fst]. now rewrite IH, point_push.
Qed.

(** C1, amended.  On a new buffer of size [n], before any read: pushes of
    fewer than [n] items all resolve true and the buffer holds exactly the
    pushed items, in order; when exactly [n] items are pushed, the first
    [n - 1] pushes resolve true, the [n]-th push appends its item as well
    (nothing is lost) but its promise stays pending, and the next read
    resolves it. *)
Theorem PushBuffer_push_until_full (n : Z) s (vs : list (Item T Error)) :
  new n = Returns s ->
  (Z.of_nat (List.length vs) < n ->
     snd (pushAll vs s) = repeat (Some true) (List.length vs)
     /\ buffer (fst (pushAll vs s)) = vs)
  /\ (Z.of_nat (List.length vs) = n ->
     snd (pushAll vs s) = repeat (Some true) (List.length vs - 1) ++ [None]
     /\ buffer (fst (pushAll vs s)) = vs
     /\ pushPending (fst (pushAll vs s)) = true
     /\ pushPending (fst (next (fst (pushAll vs s)))) = false).
Proof.
  intros H. apply new_Returns in H as [N ->].
  set (s := mk _ _ _ _ _ _ _ _).
  assert (W : isWritable s = true) by reflexivity.
  split; intros L.
  - destruct (pushAll_below vs s W) as (R & B & _); [cbn; lia|].
    now rewrite R, B.
  - destruct (exists_last (l := vs)) as (vs' & v & ->).
    { intros ->. cbn in L. lia. }
    rewrite length_app in L |- *. cbn [List.length] in L |- *.
    replace (List.length vs' + 1 - 1)%nat with (List.length vs') by lia.
    rewrite pushAll_app. cbn [fst snd].
    destruct (pushAll_below vs' s W) as (R & B & Sz & W'); [cbn; lia|].
    set (s1 := fst (pushAll vs' s)) in *.
    assert (E : pushAll [v] s1 = (fst (push v s1), [snd (push v s1)])).
    { rewrite pushAll_cons. reflexivity. }
    rewrite E. cbn [fst snd].
    destruct (push_writable v s1 W') as (Hb & Hn & Hw & Hr & Hp).
    assert (Len : Z.of_nat (S (length s1)) = bufferSize s1).
    { unfold length. rewrite B, Sz. cbn. lia. }
    assert (F : (Z.of_nat (S (length s1)) <? bufferSize s1) = false)
      by (apply Z.ltb_ge; lia).
    rewrite F in Hr, Hp. rewrite R, Hr, Hb, B, Hp. cbn [negb app].
    repeat split.
    apply next_resolves_push; auto.
    + left. unfold s1. now rewrite point_push, point_pushAll.
    + rewrite Hn, Sz. exact N.
    + unfold length. rewrite Hb, Hn, length_app. cbn [List.length].
      unfold length in Len. lia.
Qed.

(** *** The bound on the buffered length *)

(** C2, amended.  When the producer awaits its pushes (it calls [push] only
    when no promise of an earlier [push] is pending), the buffered length is
    at most [bufferSize] in every state that [push], [next], [return],
    [throw], [end], [endWrite], [lock] and [clear] lead to. *)
Theorem PushBuffer_length_bounded_when_pushes_awaited (n : Z) s (ops : list (Op T Error)) :
  new n = Returns s ->
  awaitsPushes ops s = true ->
  Z.of_nat (length (run ops s)) <= bufferSize (run ops s).
Proof.
  intros H A. apply bounded_new in H as [B _].
  now destruct (bounded_run ops s B A) as (_ & L & _).
Qed.

(** *** The end of iteration *)

Lemma isWritable_isDone s : isDone s = true -> isWritable s = false.
Proof.
  unfold isDone, isWritable. intros H. apply andb_true_iff in H as [-> _]. reflexivity.
Qed.

(** C10, amended.  Once an iteration that has begun ([isIterating]) is over,
    whatever ended it, both gates are locked and the buffer is empty:
    [isDone()] is true, [length] is 0 and every later [push] returns false
    and appends nothing. *)
Theorem PushBuffer_done_after_iteration (n : Z) s0 (ops : list (Op T Error)) :
  new n = Returns s0 ->
  isIterating (run ops s0) = true ->
  point (run ops s0) = Completed ->
  isDone (run ops s0) = true
  /\ length (run ops s0) = 0%nat
  /\ forall v, push v (run ops s0) = (run ops s0, Some false).
Proof.
  intros H I P.
  destruct (consistent_run ops s0 (consistent_new n s0 H)) as (_ & C & _).
  destruct (C P I) as [D B].
  repeat split; [exact D | unfold length; now rewrite B |].
  intros v. apply push_not_writable. now apply isWritable_isDone.
Qed.

(** *** [end(err)] *)

Lemma spent_intro s : point s = Completed -> buffer s = [] -> spent s.
Proof.
  intros P B. repeat split; auto.
  intros ops. unfold next. now rewrite request_Completed by now apply run_Completed.
Qed.

Lemma next_after_end err s :
  point s = SuspendedStart \/ point s = SuspendedYield ->
  snd (next (end_ (Some err) s)) = Throw err
  /\ point (fst (next (end_ (Some err) s))) = Completed
  /\ buffer (fst (next (end_ (Some err) s))) = [].
Proof.
  intros [P | P]; destruct s as [? ? [? ?] [? ?] ? ? ? ?]; cbn in P; subst;
    pb_unfold; pb_cases; auto.
Qed.

Lemma resume_after_end err s :
  point s = AwaitingRead ->
  Gate.attended (readGate s) ->
  exists s2,
    resume (end_ (Some err) s) = Some (s2, Throw err :: map settledLate (queue s))
    /\ point s2 = Completed /\ buffer s2 = [].
Proof.
  intros P W. destruct s as [b n wg [rs rw] e it p q]. cbn in P, W. subst p.
  unfold resume.
  destruct rw as [| |ok]; [destruct W | cbv in W; subst rs | destruct rs, ok];
    cbv [end_ lock set_error set_writeGate set_readGate point readGate writeGate
         buffer bufferSize error isIterating queue Gate.lock Gate.isLocked Gate.state
         Gate.waiter Gate.wake Gate.release outer epilogue finally set_point set_buffer
         isAwaiting fst snd];
    rewrite drain_Completed by reflexivity;
    (eexists; split; [reflexivity | split; reflexivity]).
Qed.

(** C3, amended.  When iteration is not already over, after [end(err)] the
    next read throws [err]: the [next()] that follows, or the read that was
    waiting for an item when [end(err)] was called.  Nothing that was
    buffered is delivered, the error is not thrown again, and every later
    read yields completion. *)
Theorem PushBuffer_end_error_delivered_once (n : Z) s0 (ops : list (Op T Error)) (err : Error) :
  new n = Returns s0 ->
  point (run ops s0) <> Completed ->
  (point (run ops s0) <> AwaitingRead ->
     snd (next (end_ (Some err) (run ops s0))) = Throw err
     /\ spent (fst (next (end_ (Some err) (run ops s0)))))
  /\ (point (run ops s0) = AwaitingRead ->
     exists s2,
       resume (end_ (Some err) (run ops s0))
       = Some (s2, Throw err :: map settledLate (queue (run ops s0)))
       /\ spent s2).
Proof.
  intros H NC.
  pose proof (consistent_run ops s0 (consistent_new n s0 H)) as (_ & _ & CW).
  set (s := run ops s0) in *.
  split; intros P.
  - destruct (next_after_end err s) as (R & Pt & B).
    { destruct (point s); auto; congruence. }
    split; [exact R | now apply spent_intro].
  - destruct (resume_after_end err s P (CW P)) as (s2 & R & Pt & B).
    exists s2. split; [exact R | now apply spent_intro].
Qed.

(** *** Pulling from a source *)

Lemma error_push v s : error (fst (push v s)) = error s.
Proof.
  unfold push. destruct (negb (isWritable s)); [auto|].
  cbn. now destruct (Gate.check _).
Qed.

Lemma error_endWrite_None s : error (endWrite None s) = error s.
Proof. reflexivity. Qed.

Lemma pull_loop_error stop vs fail : forall s how s',
  pull_loop stop vs fail s = Ended how s' -> error s' = error s.
Proof.
  induction vs as [|v vs IH]; intros s how s'; cbn [pull_loop].
  - destruct fail; intros [= _ <-]; reflexivity.
  - pose proof (error_push (Value v) s) as E.
    destruct (push (Value v) s) as [s1 [ok|]]; cbn [fst] in E; [|discriminate].
    destruct (stop ok s1).
    + intros [= _ <-]. exact E.
    + intros H. apply IH in H. congruence.
Qed.

(** The method never records the error of its source. *)
Lemma pull_error_unchanged (src : Source T Error) s how s' :
  pull src s = Ended how s' -> error s' = error s.
Proof.
  unfold pull, method_after.
  destruct (pull_loop method_stop (items src) (failure src) s) as [how1 s1|] eqn:L;
    [|discriminate].
  intros [= _ <-]. rewrite error_endWrite_None. eapply pull_loop_error; eauto.
Qed.

(** C6, the code at the failing input.  Method [pull] on a new buffer, from
    a source that throws [e]: the error is caught and dropped.  The buffer
    records no error and its consumer reads a normal completion.  (More
    generally, [pull_error_unchanged]: the method never records an error.) *)
Theorem PushBuffer_pull_drops_source_error (n : Z) s0 (e : Error) :
  new n = Returns s0 ->
  exists s',
    pull (mkSource [] (Some e)) s0 = Ended (Caught e) s'
    /\ error s' = None
    /\ snd (next s') = Done.
Proof.
  intros H. apply new_Returns in H as [_ ->].
  eexists. split; [reflexivity|]. split; reflexivity.
Qed.

(** Function [pull(src, dest)] on the same input records the error, and the
    consumer of [dest] reads it. *)
Lemma pull_into_delivers_source_error (n : Z) s0 (e : Error) :
  new n = Returns s0 ->
  exists s',
    pull_into (mkSource [] (Some e)) s0 = Ended (Caught e) s'
    /\ error s' = Some e
    /\ snd (next s') = Throw e.
Proof.
  intros H. apply new_Returns in H as [_ ->].
  eexists. split; [reflexivity|]. split; reflexivity.
Qed.

(** *** A second iteration *)

(** C7, the code at the failing input.  On a buffer that is iterating (a
    first [next()] has entered [iterate()]), [[Symbol.asyncIterator]()] and
    [collect()] throw the [TypeError] of [new this.constructor.Error(...)],
    which is not the IllegalState error. *)
Theorem PushBuffer_second_iteration_raises_TypeError (n : Z) s0 :
  new n = Returns s0 ->
  isIterating (fst (next s0)) = true
  /\ asyncIterator (fst (next s0))
     = Throws (TypeError "this.constructor.Error is not a constructor")
  /\ collect_guard (fst (next s0))
     = Throws (TypeError "this.constructor.Error is not a constructor")
  /\ isIllegalState (TypeError (Error := Error) "this.constructor.Error is not a constructor")
     = false.
Proof.
  intros H. apply new_Returns in H as [_ ->]. repeat split.
Qed.

(** The guard itself never lets a second iteration through. *)
Lemma PushBuffer_second_iteration_never_succeeds s :
  isIterating s = true ->
  (exists x, asyncIterator s = Throws x) /\ (exists x, collect_guard s = Throws x).
Proof.
  intros I. unfold asyncIterator, collect_guard. rewrite I. eauto.
Qed.

End PushBufferFacts.

(** ** Pipeline *)

Section PipelineFacts.

Context {Gen Error : Type}.
Implicit Types (p : Pipeline.t Gen Error) (es : list (Pipeline.Event Error)).

Import Pipeline.

(** *** Composition order *)

Lemma through_app (fns1 fns2 : list (@PipelineTransform Gen)) (g : Gen) :
  through (fns1 ++ fns2) g = through fns2 (through fns1 g).
Proof. unfold through. apply fold_left_app. Qed.

Lemma pipings_not_iterating (cs : list (Piping Gen)) : forall p,
  isIterating p = false ->
  exists p',
    pipings cs p = Returns p'
    /\ isIterating p' = false
    /\ source (definition p') = source (definition p)
    /\ transformsBefore (definition p')
       = transformsBefore (definition p) ++ stagesBefore cs
    /\ transforms (definition p') = transforms (definition p) ++ stages cs.
Proof.
  induction cs as [|c cs IH]; intros p I.
  - exists p. cbn. now rewrite !app_nil_r.
  - destruct c as [fn|fn]; cbn [pipings piping stages stagesBefore];
      unfold pipe, pipeBefore; rewrite I.
    + destruct (IH (set_definition (definition_pipe fn (definition p)) p) I)
        as (p' & R & I' & S & B & A).
      exists p'. cbn in S, B, A. rewrite R, I', S, B, A, <- app_assoc. auto.
    + destruct (IH (set_definition (definition_pipeBefore fn (definition p)) p) I)
        as (p' & R & I' & S & B & A).
      exists p'. cbn in S, B, A. rewrite R, I', S, B, A, <- app_assoc. auto.
Qed.

(** C5.  However the calls of [pipe] and [pipeBefore] on a new pipeline are
    interleaved, they all succeed and the generator that [iterate()] then
    iterates is the source, passed through the [pipeBefore] stages in their
    call order and then through the [pipe] stages in their call order. *)
Theorem Pipeline_composition_order (src : Gen) (cs : list (Piping Gen)) :
  exists p,
    pipings cs (new (Error := Error) src None) = Returns p
    /\ getTransforms (definition p) = stagesBefore cs ++ stages cs
    /\ composed p = through (stages cs) (through (stagesBefore cs) src).
Proof.
  destruct (pipings_not_iterating cs (new src None) eq_refl)
    as (p & R & _ & S & B & A).
  exists p. split; [exact R|].
  unfold composed, getTransforms. rewrite S, B, A. cbn [new definition newDefinition
    source transforms transformsBefore app].
  split; [reflexivity|]. apply through_app.
Qed.

(** Once iteration has started, [pipe] and [pipeBefore] throw IllegalState. *)
Lemma Pipeline_pipe_after_start p (fn : @PipelineTransform Gen) :
  isIterating p = true ->
  (exists x, pipe fn p = Throws x /\ isIllegalState x = true)
  /\ (exists x, pipeBefore fn p = Throws x /\ isIllegalState x = true).
Proof.
  intros I. unfold pipe, pipeBefore. rewrite I. split; eexists; split; reflexivity.
Qed.

(** A second iteration of a pipeline throws IllegalState. *)
Lemma Pipeline_second_iteration_IllegalState p :
  isIterating p = true ->
  exists x, asyncIterator p = Throws x /\ isIllegalState x = true.
Proof.
  intros I. unfold asyncIterator. rewrite I. eexists; split; reflexivity.
Qed.

(** *** Teardown *)

Ltac tidy_unfold :=
  cbv [tidy unfired firedWith step cleanup cleanup_enter cleanup_continue
    iterate_start iterate_finally return_start throw_start triggerBeforeFinallyOnce
    callSourceReturn POnce.pOnceWrap POnce.settle POnce.isSettled POnce.isStarted
    Signal.trigger Signal.triggerCount Signal.fired orElse clearTransforms
    set_definition set_isIterating set_isCleaningUp set_cleanupCall set_cleanupAt
    set_cleanupError set_cleanupThrown set_onStart set_onBeforeFinally set_onFinally
    set_onError set_sourceReturned
    definition isIterating isCleaningUp cleanupCall cleanupAt cleanupError cleanupThrown
    onStart onBeforeFinally onFinally onError sourceReturned] in *.

Ltac tidy_cases :=
  repeat match goal with
         | |- context [match ?x with _ => _ end] => is_var x; destruct x
         end.

Lemma tidy_new (src : Gen) d : tidy (new (Error := Error) src d).
Proof. cbv. auto. Qed.

Lemma tidy_step e p : tidy p -> tidy (step e p).
Proof.
  intros Tp.
  destruct p as [d it cu cc ca ce ct os [bn bf] [fn ff] oe sr].
  destruct e as [err|thrown| | | |err]; tidy_unfold.
  - destruct Tp as [Hb Hc]. destruct ca, cc; try (destruct Hc; discriminate);
      destruct err; intuition (try congruence).
  - destruct Tp as [Hb Hc].
    destruct ca; try destruct ct; try destruct thrown;
      intuition (subst; try congruence; try discriminate).
    all: try (repeat match goal with H : Signal.mk _ _ = Signal.mk _ _ |- _ =>
                                     injection H as ? ? end; subst; auto).
  - exact Tp.
  - destruct Tp as [[Hb | Hb] Hc]; injection Hb as -> ->; destruct ca;
      intuition (try congruence).
  - destruct cu; [exact Tp|].
    destruct Tp as [[Hb | Hb] Hc]; injection Hb as -> ->; destruct ca;
      intuition (try congruence).
  - destruct cu; [exact Tp|].
    destruct Tp as [[Hb | Hb] Hc]; injection Hb as -> ->; destruct ca;
      intuition (try congruence).
Qed.

Lemma tidy_run es : forall p, tidy p -> tidy (run es p).
Proof.
  induction es as [|e es IH]; intros p Tp; cbn; [auto|].
  apply IH. now apply tidy_step.
Qed.

(** Once [cleanup] has been called, no event starts it again or changes
    the error it was called with. *)
Lemma started_step e p :
  POnce.isStarted (cleanupCall p) = true ->
  POnce.isStarted (cleanupCall (step e p)) = true
  /\ cleanupError (step e p) = cleanupError p.
Proof.
  intros St.
  destruct p as [d it cu cc ca ce ct os [bn bf] onf oe sr].
  destruct e as [err|thrown| | | |err]; tidy_unfold; tidy_cases;
    try discriminate; split; reflexivity.
Qed.

Lemma settled_step e p :
  POnce.isSettled (cleanupCall p) = true ->
  POnce.isSettled (cleanupCall (step e p)) = true.
Proof.
  intros St.
  destruct p as [d it cu cc ca ce ct os [bn bf] onf oe sr].
  destruct e as [err|thrown| | | |err]; tidy_unfold; tidy_cases;
    try discriminate; reflexivity.
Qed.

Lemma settled_run es : forall p,
  POnce.isSettled (cleanupCall p) = true ->
  POnce.isSettled (cleanupCall (run es p)) = true.
Proof.
  induction es as [|e es IH]; intros p St; cbn; [auto|].
  apply IH. now apply settled_step.
Qed.

Lemma started_run es : forall p,
  POnce.isStarted (cleanupCall p) = true ->
  POnce.isStarted (cleanupCall (run es p)) = true
  /\ cleanupError (run es p) = cleanupError p.
Proof.
  induction es as [|e es IH]; intros p St; [auto|].
  change (run (e :: es) p) with (run es (step e p)).
  destruct (started_step e p St) as [St' E].
  destruct (IH (step e p) St') as [St'' E']. split; congruence.
Qed.

Lemma unstarted_step e p :
  tidy p ->
  POnce.isStarted (cleanupCall p) = false ->
  match e with
  | Cleanup error =>
      POnce.isStarted (cleanupCall (step e p)) = true
      /\ cleanupError (step e p) = error
  | _ => POnce.isStarted (cleanupCall (step e p)) = false
  end.
Proof.
  intros Tp St.
  destruct p as [d it cu cc ca ce ct os [bn bf] onf oe sr].
  destruct Tp as [_ Hc].
  destruct e as [err|thrown| | | |err]; tidy_unfold; tidy_cases;
    try discriminate; try (split; reflexivity); try reflexivity;
    try (destruct Hc as [Hc _]; discriminate).
Qed.

Lemma first_cleanup_wins es : forall p,
  tidy p ->
  POnce.isStarted (cleanupCall p) = false ->
  match firstCleanup es with
  | Some error =>
      POnce.isStarted (cleanupCall (run es p)) = true
      /\ cleanupError (run es p) = error
  | None => POnce.isStarted (cleanupCall (run es p)) = false
  end.
Proof.
  induction es as [|e es IH]; intros p Tp St; [exact St|].
  pose proof (unstarted_step e p Tp St) as U.
  pose proof (tidy_step e p Tp) as Tp'.
  change (run (e :: es) p) with (run es (step e p)).
  destruct e; cbn [firstCleanup]; try (apply IH; assumption).
  destruct U as [St' E].
  destruct (started_run es _ St') as [St'' E']. split; congruence.
Qed.

(** A started [cleanup] reaches its end in four continuations at most. *)
Lemma cleanupAt_continue thrown p :
  cleanupAt (cleanup_continue thrown p)
  = match cleanupAt p, thrown with
    | NotEntered, _ => NotEntered
    | AwaitOnError, _ => AwaitSourceReturn
    | AwaitSourceReturn, _ => AwaitBeforeFinally
    | AwaitBeforeFinally, None => AwaitFinally
    | AwaitBeforeFinally, Some _ | AwaitFinally, _ | Returned, _ => Returned
    end.
Proof. unfold cleanup_continue. destruct (cleanupAt p) eqn:E, thrown; cbn; auto. Qed.

Lemma cleanup_settles p t1 t2 t3 t4 :
  tidy p ->
  POnce.isStarted (cleanupCall p) = true ->
  POnce.isSettled
    (cleanupCall (run [Continue t1; Continue t2; Continue t3; Continue t4] p)) = true.
Proof.
  intros Tp St.
  pose proof (tidy_run [Continue t1; Continue t2; Continue t3; Continue t4] p Tp) as Tq.
  assert (A : cleanupAt (run [Continue t1; Continue t2; Continue t3; Continue t4] p)
              = Returned).
  { cbn [run fold_left step]. rewrite !cleanupAt_continue.
    destruct Tp as [_ Hc]. destruct (cleanupAt p), t1, t2, t3, t4; try reflexivity;
      destruct Hc as [Hc _]; rewrite Hc in St; discriminate. }
  destruct Tq as [_ Hc]. rewrite A in Hc. apply Hc.
Qed.


(** *** A body of [cleanup] that has ended *)

Lemma run_app es1 es2 p : run (es1 ++ es2) p = run es2 (run es1 p).
Proof. unfold run. apply fold_left_app. Qed.

Lemma always_app (ok : Event Error -> Pipeline.t Gen Error -> bool) es1 : forall es2 p,
  always ok (es1 ++ es2) p = always ok es1 p && always ok es2 (run es1 p).
Proof.
  induction es1 as [|e es1 IH]; intros es2 p; [reflexivity|].
  change (run (e :: es1) p) with (run es1 (step e p)).
  cbn [always app]. rewrite IH. now rewrite andb_assoc.
Qed.

(** After the end of the body no event changes what it left. *)
Lemma Returned_step e p :
  tidy p -> cleanupAt p = Returned ->
  cleanupAt (step e p) = Returned
  /\ onFinally (step e p) = onFinally p
  /\ onBeforeFinally (step e p) = onBeforeFinally p
  /\ definition (step e p) = definition p
  /\ cleanupError (step e p) = cleanupError p.
Proof.
  intros Tp A.
  destruct p as [d it cu cc ca ce ct os [bn bf] onf oe sr].
  destruct Tp as [_ Hc]. cbn in A. subst ca. destruct Hc as (Hs & _ & Hb).
  destruct e as [err|thrown| | | |err]; tidy_unfold; tidy_cases;
    try discriminate; try (injection Hb as ? ?; discriminate); repeat split.
Qed.

Lemma Returned_run es : forall p,
  tidy p -> cleanupAt p = Returned ->
  cleanupAt (run es p) = Returned
  /\ onFinally (run es p) = onFinally p
  /\ onBeforeFinally (run es p) = onBeforeFinally p
  /\ definition (run es p) = definition p
  /\ cleanupError (run es p) = cleanupError p.
Proof.
  induction es as [|e es IH]; intros p Tp A; [auto|].
  change (run (e :: es) p) with (run es (step e p)).
  destruct (Returned_step e p Tp A) as (A1 & F1 & B1 & D1 & E1).
  destruct (IH (step e p) (tidy_step e p Tp) A1) as (A2 & F2 & B2 & D2 & E2).
  repeat split; congruence.
Qed.





End PipelineFacts.

(** ** OrderingUtil *)

Section OrderingUtilFacts.

Import OrderingUtil.

Implicit Types (u : OrderingUtil.t) (m : StreamMessage) (c : OrderedMsgChain).

(** *** Chain keys *)

Lemma append_inj_length (p1 p2 c1 c2 : string) :
  String.length p1 = String.length p2 ->
  p1 +:+ c1 = p2 +:+ c2 -> p1 = p2 /\ c1 = c2.
Proof.
  revert p2. induction p1 as [|a p1 IH]; intros [|b p2] L E; cbn in *;
    try discriminate; [auto|].
  injection L as L. injection E as -> E.
  destruct (IH p2 L E) as [-> ->]. auto.
Qed.

Lemma isEthereumAddress_length (s : string) :
  isEthereumAddress s = true -> String.length s = 42%nat.
Proof.
  unfold isEthereumAddress.
  destruct s as [|a s]; [discriminate|].
  destruct a as [[] [] [] [] [] [] [] []]; try discriminate.
  destruct s as [|b digits]; [discriminate|].
  destruct b as [[] [] [] [] [] [] [] []]; try discriminate.
  intros H. apply andb_true_iff in H as [H _]. apply Nat.eqb_eq in H.
  cbn. now rewrite H.
Qed.

Lemma keyOf_inj m1 m2 :
  isEthereumAddress (getPublisherId m1) = true ->
  isEthereumAddress (getPublisherId m2) = true ->
  keyOf m1 = keyOf m2 -> sameKeyPair m1 m2.
Proof.
  intros A1 A2 E. apply isEthereumAddress_length in A1, A2.
  unfold keyOf, chainKey in E. unfold sameKeyPair.
  destruct (append_inj_length _ _ _ _ (eq_trans A1 (eq_sym A2)) E) as [-> ->].
  reflexivity.
Qed.

Lemma sameKeyPair_keyOf m1 m2 : sameKeyPair m1 m2 -> keyOf m1 = keyOf m2.
Proof. unfold sameKeyPair, keyOf. now intros [= -> ->]. Qed.

(** *** [getChain] constructs lazily *)

Lemma getChain_existing (pub cid : string) u chain :
  orderedChains u !! chainKey pub cid = Some chain ->
  getChain pub cid u = (u, chainKey pub cid).
Proof. intros H. unfold getChain. now rewrite H. Qed.

Lemma getChain_first_use (pub cid : string) u :
  orderedChains u !! chainKey pub cid = None ->
  getChain pub cid u
  = (set_orderedChains
       (<[chainKey pub cid := newChain (defaultMaxGapRequests u) pub cid (maxGapRequests_ u)]>
          (orderedChains u)) u,
     chainKey pub cid).
Proof. intros H. unfold getChain. now rewrite H. Qed.

Lemma lookup_add m u key :
  orderedChains (add m u) !! key
  = if decide (keyOf m = key) then Some (chain_add m (gotChain m u))
    else orderedChains u !! key.
Proof.
  unfold add, getChain, gotChain. fold (keyOf m).
  destruct (orderedChains u !! keyOf m) as [chain|] eqn:L; cbn [orderedChains set_orderedChains].
  - rewrite lookup_alter. case_decide; [now rewrite L | reflexivity].
  - rewrite lookup_alter. case_decide.
    + now rewrite lookup_insert_eq.
    + now rewrite lookup_insert_ne.
Qed.

Lemma lookup_markMessageExplicitly m u key :
  orderedChains (markMessageExplicitly m u) !! key
  = if decide (keyOf m = key) then Some (chain_markMessageExplicitly m (gotChain m u))
    else orderedChains u !! key.
Proof.
  unfold markMessageExplicitly, getChain, gotChain. fold (keyOf m).
  destruct (orderedChains u !! keyOf m) as [chain|] eqn:L; cbn [orderedChains set_orderedChains].
  - rewrite lookup_alter. case_decide; [now rewrite L | reflexivity].
  - rewrite lookup_alter. case_decide.
    + now rewrite lookup_insert_eq.
    + now rewrite lookup_insert_ne.
Qed.

Lemma lookup_disable u key :
  orderedChains (disable u) !! key = chain_disable <$> orderedChains u !! key.
Proof. unfold disable. cbn. apply lookup_fmap. Qed.

(** *** Routing *)

Lemma routed_gotChain ms m u :
  routed ms u ->
  chainKey (publisherId (gotChain m u)) (msgChainId (gotChain m u)) = keyOf m
  /\ forall m', received m' (gotChain m u) -> m' ∈ ms /\ keyOf m' = keyOf m.
Proof.
  intros [R _]. unfold gotChain.
  destruct (orderedChains u !! keyOf m) as [chain|] eqn:L.
  - destruct (R _ _ L) as (K & _ & H). auto.
  - split; [reflexivity|]. intros m' [H | H]; cbn in H; now apply elem_of_nil in H.
Qed.

Lemma routed_deliver (f : StreamMessage -> OrderedMsgChain -> OrderedMsgChain) ms m u u' :
  (forall key, orderedChains u' !! key
               = if decide (keyOf m = key) then Some (f m (gotChain m u))
                 else orderedChains u !! key) ->
  (forall c, publisherId (f m c) = publisherId c /\ msgChainId (f m c) = msgChainId c) ->
  (forall c m', received m' (f m c) <-> received m' c \/ m' = m) ->
  routed ms u -> routed (ms ++ [m]) u'.
Proof.
  intros Lk Id Rc Ru. pose proof (routed_gotChain ms m u Ru) as [GK GR].
  destruct Ru as [R1 R2]. split.
  - intros key chain. rewrite Lk. case_decide as D.
    + intros [= <-]. subst key. destruct (Id (gotChain m u)) as [-> ->].
      split; [exact GK|]. split.
      * exists m. split; [apply elem_of_app; right; apply list_elem_of_singleton|]; auto.
      * intros m' H. apply Rc in H as [H | ->].
        -- destruct (GR m' H). split; [apply elem_of_app|]; auto.
        -- split; [apply elem_of_app; right; apply list_elem_of_singleton|]; auto.
    + intros L. destruct (R1 _ _ L) as (K & (m0 & M0 & K0) & H).
      split; [exact K|]. split.
      * exists m0. split; [apply elem_of_app|]; auto.
      * intros m' Hm'. destruct (H m' Hm'). split; [apply elem_of_app|]; auto.
  - intros m' Hm'. apply elem_of_app in Hm' as [Hm' | Hm'].
    + destruct (R2 m' Hm') as (chain & L & Hr).
      rewrite Lk. case_decide as D.
      * exists (f m (gotChain m u)). split; [reflexivity|].
        apply Rc. left. unfold gotChain. rewrite D, L. exact Hr.
      * eauto.
    + apply list_elem_of_singleton in Hm' as ->.
      rewrite Lk. rewrite decide_True by reflexivity.
      eexists. split; [reflexivity|]. apply Rc. auto.
Qed.

Lemma received_chain_add m m' c : received m' (chain_add m c) <-> received m' c \/ m' = m.
Proof.
  unfold received. cbn. rewrite elem_of_app, list_elem_of_singleton. tauto.
Qed.

Lemma received_chain_mark m m' c :
  received m' (chain_markMessageExplicitly m c) <-> received m' c \/ m' = m.
Proof.
  unfold received. cbn. rewrite elem_of_app, list_elem_of_singleton. tauto.
Qed.

Lemma routed_disable ms u : routed ms u -> routed ms (disable u).
Proof.
  intros [R1 R2]. split.
  - intros key chain. rewrite lookup_disable.
    destruct (orderedChains u !! key) as [c|] eqn:L; [|discriminate].
    intros [= <-]. exact (R1 _ _ L).
  - intros m Hm. destruct (R2 m Hm) as (c & L & Hr).
    exists (chain_disable c). rewrite lookup_disable, L. auto.
Qed.

Lemma routed_step ms op u :
  routed ms u -> routed (ms ++ messages [op]) (step op u).
Proof.
  intros R. destruct op as [m|m|]; cbn.
  - apply routed_deliver with (f := chain_add) (u := u);
      [apply lookup_add | intros c; split; reflexivity
       | intros c m'; apply received_chain_add | exact R].
  - apply routed_deliver with (f := chain_markMessageExplicitly) (u := u);
      [apply lookup_markMessageExplicitly | intros c; split; reflexivity
       | intros c m'; apply received_chain_mark | exact R].
  - rewrite app_nil_r. now apply routed_disable.
Qed.

Lemma routed_run ops : forall ms u,
  routed ms u -> routed (ms ++ messages ops) (run ops u).
Proof.
  induction ops as [|op ops IH]; intros ms u R.
  - cbn. now rewrite app_nil_r.
  - change (run (op :: ops) u) with (run ops (step op u)).
    change (op :: ops) with ([op] ++ ops).
    unfold messages. rewrite omap_app, app_assoc.
    apply IH. now apply routed_step.
Qed.

Lemma routed_new d pt rt mg : routed [] (new d pt rt mg).
Proof.
  split.
  - intros key chain. cbn. now rewrite lookup_empty.
  - intros m H. now apply elem_of_nil in H.
Qed.

(** C9.  After any calls of [add] and [markMessageExplicitly] (and
    [disable]) on a new [OrderingUtil], with publisher ids that are Ethereum
    addresses: two of the messages were given to the same chain if and only
    if their pairs (publisherId, msgChainId) are equal; and a chain exists
    under a key exactly when a message with that key has been routed. *)
Theorem OrderingUtil_routes_by_chain_key d pt rt mg (ops : list Op) :
  wellFormed ops ->
  (forall m1 m2, m1 ∈ messages ops -> m2 ∈ messages ops ->
     (sameChain (run ops (new d pt rt mg)) m1 m2 <-> sameKeyPair m1 m2))
  /\ (forall key, is_Some (orderedChains (run ops (new d pt rt mg)) !! key)
                  <-> exists m, m ∈ messages ops /\ keyOf m = key).
Proof.
  intros WF.
  pose proof (routed_run ops [] _ (routed_new d pt rt mg)) as [R1 R2].
  cbn [app] in R1, R2. split.
  - intros m1 m2 H1 H2. split.
    + intros (key & chain & L & Hr1 & Hr2).
      destruct (R1 _ _ L) as (_ & _ & H).
      destruct (H m1 Hr1) as [_ K1]. destruct (H m2 Hr2) as [_ K2].
      apply keyOf_inj; [now apply WF | now apply WF | congruence].
    + intros S. apply sameKeyPair_keyOf in S.
      destruct (R2 m1 H1) as (c1 & L1 & Hr1).
      destruct (R2 m2 H2) as (c2 & L2 & Hr2).
      rewrite <- S in L2. rewrite L1 in L2. injection L2 as <-.
      exists (keyOf m1), c1. auto.
  - intros key. split.
    + intros [chain L]. destruct (R1 _ _ L) as (_ & E & _). exact E.
    + intros (m & Hm & <-). destruct (R2 m Hm) as (c & L & _). eauto.
Qed.

(** *** [disable] *)

Lemma disabled_disable u : disabled (disable u).
Proof.
  split; [reflexivity|]. intros key chain. rewrite lookup_disable.
  destruct (orderedChains u !! key); [|discriminate]. now intros [= <-].
Qed.

Lemma disabled_gotChain m u : disabled u -> maxGapRequests (gotChain m u) = 0.
Proof.
  intros [M C]. unfold gotChain.
  destruct (orderedChains u !! keyOf m) as [chain|] eqn:L; [eauto|].
  cbn. now rewrite M.
Qed.

Lemma disabled_step op u : disabled u -> disabled (step op u).
Proof.
  intros D. destruct op as [m|m|]; cbn [step]; [| |apply disabled_disable].
  - pose proof (disabled_gotChain m u D) as G. destruct D as [M C]. split.
    + unfold add. destruct (getChain _ _ u) as [u1 k] eqn:E. cbn.
      unfold getChain in E. destruct (orderedChains u !! _); now injection E as <- _.
    + intros key chain. rewrite lookup_add. case_decide; [|apply C].
      intros [= <-]. exact G.
  - pose proof (disabled_gotChain m u D) as G. destruct D as [M C]. split.
    + unfold markMessageExplicitly. destruct (getChain _ _ u) as [u1 k] eqn:E. cbn.
      unfold getChain in E. destruct (orderedChains u !! _); now injection E as <- _.
    + intros key chain. rewrite lookup_markMessageExplicitly. case_decide; [|apply C].
      intros [= <-]. exact G.
Qed.

Lemma disabled_run ops : forall u, disabled u -> disabled (run ops u).
Proof.
  induction ops as [|op ops IH]; intros u D; [exact D|].
  change (run (op :: ops) u) with (run ops (step op u)).
  apply IH. now apply disabled_step.
Qed.

Lemma lookup_step_is_Some op u key :
  is_Some (orderedChains u !! key) -> is_Some (orderedChains (step op u) !! key).
Proof.
  intros H. destruct op as [m|m|]; cbn [step].
  - rewrite lookup_add. case_decide; eauto.
  - rewrite lookup_markMessageExplicitly. case_decide; eauto.
  - rewrite lookup_disable. destruct H as [c ->]. eauto.
Qed.

(** C8.  After [disable()], and after any later calls of [add],
    [markMessageExplicitly] and [disable]: [maxGapRequests] is 0 in the
    [OrderingUtil] and in every chain, those that existed when [disable] was
    called and those constructed since, one for each key used; no chain
    makes a gap request, whatever the number of attempts made. *)
Theorem OrderingUtil_disable_stops_gap_requests u (ops : list Op) :
  maxGapRequests_ (run ops (disable u)) = Some 0
  /\ (forall key, is_Some (orderedChains u !! key) ->
                  is_Some (orderedChains (run ops (disable u)) !! key))
  /\ (forall m, m ∈ messages ops ->
                is_Some (orderedChains (run ops (disable u)) !! keyOf m))
  /\ (forall key chain, orderedChains (run ops (disable u)) !! key = Some chain ->
        maxGapRequests chain = 0
        /\ forall attemptsMade, requestsGap attemptsMade chain = false).
Proof.
  pose proof (disabled_run ops _ (disabled_disable u)) as [M C].
  split; [exact M|]. split; [|split].
  - intros key H.
    assert (H0 : is_Some (orderedChains (disable u) !! key)).
    { rewrite lookup_disable. destruct H as [c ->]. eauto. }
    revert H0. generalize (disable u). clear.
    induction ops as [|op ops IH]; intros u0 H; [exact H|].
    change (run (op :: ops) u0) with (run ops (step op u0)).
    apply IH. now apply lookup_step_is_Some.
  - generalize (disable u). clear.
    induction ops as [|op ops IH]; intros u0 m Hm; [now apply elem_of_nil in Hm|].
    change (run (op :: ops) u0) with (run ops (step op u0)).
    change (op :: ops) with ([op] ++ ops) in Hm.
    unfold messages in Hm. rewrite omap_app in Hm. apply elem_of_app in Hm as [Hm | Hm].
    + assert (H : is_Some (orderedChains (step op u0) !! keyOf m)).
      { destruct op as [m0|m0|]; cbn in Hm.
        - apply list_elem_of_singleton in Hm as ->. cbn [step].
          rewrite lookup_add, decide_True by reflexivity. eauto.
        - apply list_elem_of_singleton in Hm as ->. cbn [step].
          rewrite lookup_markMessageExplicitly, decide_True by reflexivity. eauto.
        - now apply elem_of_nil in Hm. }
      revert H. generalize (step op u0). clear.
      induction ops as [|op ops IH]; intros u0 H; [exact H|].
      change (run (op :: ops) u0) with (run ops (step op u0)).
      apply IH. now apply lookup_step_is_Some.
    + now apply IH.
  - intros key chain L. pose proof (C _ _ L) as Z. split; [exact Z|].
    intros attemptsMade. unfold requestsGap. rewrite Z. apply Z.ltb_ge. lia.
Qed.

End OrderingUtilFacts.

(** * Concrete runs *)

Section ConcreteRuns.

Import PushBuffer Examples.

(** C1 at size 2: the first push resolves true, the second (the buffer is
    then full) stays pending until the read. *)
Lemma PushBuffer_push_until_full_witness :
  exists s : PushBuffer.t nat string,
    new 2 = Returns s
    /\ snd (pushAll [item 1; item 2] s) = [Some true; None]
    /\ buffer (fst (pushAll [item 1; item 2] s)) = [item 1; item 2]
    /\ pushPending (fst (next (fst (pushAll [item 1; item 2] s)))) = false.
Proof.
  eexists. split; [reflexivity|].
  destruct (PushBuffer_push_until_full 2 _ [item 1; item 2] eq_refl) as [_ H].
  destruct (H eq_refl) as (R & B & _ & N).
  exact (conj R (conj B N)).
Defined.

(** C1 as stated fails at size 1: the count does not exceed the size, yet
    the push does not resolve. *)
Lemma PushBuffer_push_at_capacity_pending :
  exists s : PushBuffer.t nat string,
    new 1 = Returns s
    /\ Z.of_nat (List.length [item 0]) <= 1
    /\ snd (pushAll [item 0] s) = [None]
    /\ snd (pushAll [item 0] s) <> [Some true].
Proof.
  eexists. split; [reflexivity|]. split; [cbn; lia|]. split; [reflexivity|].
  discriminate.
Qed.

(** One more push on the full buffer is appended as well and stays pending
    after one read: the buffer is still full. *)
Example PushBuffer_extra_push_pending_after_one_read :
  exists s : PushBuffer.t nat string,
    new 1 = Returns s
    /\ snd (pushAll [item 0; item 1] s) = [None; None]
    /\ buffer (fst (pushAll [item 0; item 1] s)) = [item 0; item 1]
    /\ snd (next (fst (pushAll [item 0; item 1] s))) = Yield 0%nat
    /\ pushPending (fst (next (fst (pushAll [item 0; item 1] s)))) = true.
Proof. eexists. repeat split. Qed.

(** C2 on a producer that awaits: push, read, push. *)
Lemma PushBuffer_length_bounded_witness :
  exists s : PushBuffer.t nat string,
    new 1 = Returns s
    /\ awaitsPushes [OpPush (item 1); OpNext; OpPush (item 2)] s = true
    /\ Z.of_nat (length (run [OpPush (item 1); OpNext; OpPush (item 2)] s))
       <= bufferSize (run [OpPush (item 1); OpNext; OpPush (item 2)] s).
Proof.
  eexists. split; [reflexivity|]. split; [reflexivity|].
  apply (PushBuffer_length_bounded_when_pushes_awaited 1 _
           [OpPush (item 1); OpNext; OpPush (item 2)] eq_refl eq_refl).
Defined.

(** C2 as stated fails: two pushes in a row on a buffer of size 1 leave two
    unread items in a buffer that is still writable. *)
Lemma PushBuffer_unawaited_pushes_exceed_bufferSize :
  exists s : PushBuffer.t nat string,
    new 1 = Returns s
    /\ isWritable (run [OpPush (item 1); OpPush (item 2)] s) = true
    /\ length (run [OpPush (item 1); OpPush (item 2)] s) = 2%nat
    /\ ~ (Z.of_nat (length (run [OpPush (item 1); OpPush (item 2)] s))
          <= bufferSize (run [OpPush (item 1); OpPush (item 2)] s)).
Proof.
  eexists. split; [reflexivity|]. split; [reflexivity|]. split; [reflexivity|].
  vm_compute. intros H. apply H. reflexivity.
Qed.

(** C3 with one item buffered and unread. *)
Lemma PushBuffer_end_error_delivered_once_witness :
  exists s0 : PushBuffer.t nat string,
    new 1 = Returns s0
    /\ point (run [OpPush (item 7)] s0) <> Completed
    /\ snd (next (end_ (Some "boom"%string) (run [OpPush (item 7)] s0))) = Throw "boom"%string
    /\ spent (fst (next (end_ (Some "boom"%string) (run [OpPush (item 7)] s0)))).
Proof.
  eexists. split; [reflexivity|].
  assert (NC : point (run [OpPush (item 7)]
                        (mk [] 1 (Gate.close Gate.new) (Gate.close Gate.new)
                            None false SuspendedStart [])) <> Completed)
    by discriminate.
  split; [exact NC|].
  destruct (PushBuffer_end_error_delivered_once 1 _ [OpPush (item 7)] "boom"%string
              eq_refl NC) as [H _].
  apply H. discriminate.
Defined.

(** C3 as stated fails on a buffer whose iteration is over: the producer
    ended writing, the consumer read the item and then the completion;
    [end(err)] after that is followed by a read that yields completion. *)
Lemma PushBuffer_end_error_after_completion_not_thrown :
  exists s0 : PushBuffer.t nat string,
    new 1 = Returns s0
    /\ snd (next (end_ (Some "boom"%string)
                   (run [OpPush (item 7); OpEndWrite None; OpNext; OpNext] s0))) = Done
    /\ snd (next (end_ (Some "boom"%string)
                   (run [OpPush (item 7); OpEndWrite None; OpNext; OpNext] s0)))
       <> Throw "boom"%string.
Proof.
  eexists. split; [reflexivity|]. split; [reflexivity | discriminate].
Qed.

(** C10 on a buffer read once and then returned. *)
Lemma PushBuffer_done_after_iteration_witness :
  exists s0 : PushBuffer.t nat string,
    new 1 = Returns s0
    /\ isIterating (run [OpPush (item 7); OpNext; OpReturn] s0) = true
    /\ point (run [OpPush (item 7); OpNext; OpReturn] s0) = Completed
    /\ isDone (run [OpPush (item 7); OpNext; OpReturn] s0) = true
    /\ length (run [OpPush (item 7); OpNext; OpReturn] s0) = 0%nat.
Proof.
  eexists. split; [reflexivity|]. split; [reflexivity|]. split; [reflexivity|].
  destruct (PushBuffer_done_after_iteration 1 _ [OpPush (item 7); OpNext; OpReturn]
              eq_refl eq_refl eq_refl) as (D & L & _).
  exact (conj D L).
Defined.

(** C10 as stated fails when [throw()] ends an iteration that has not
    begun: the generator is completed, the read gate is not locked and the
    pushed item is still buffered. *)
Lemma PushBuffer_throw_before_start_not_done :
  exists s0 : PushBuffer.t nat string,
    new 1 = Returns s0
    /\ point (run [OpPush (item 7); OpThrow "boom"%string] s0) = Completed
    /\ snd (next (run [OpPush (item 7); OpThrow "boom"%string] s0)) = Done
    /\ isDone (run [OpPush (item 7); OpThrow "boom"%string] s0) = false
    /\ length (run [OpPush (item 7); OpThrow "boom"%string] s0) = 1%nat.
Proof.
  eexists. split; [reflexivity|]. repeat split.
Qed.

(** C6 on a buffer of size 1. *)
Lemma PushBuffer_pull_drops_source_error_witness :
  exists s0 s' : PushBuffer.t nat string,
    new 1 = Returns s0
    /\ pull (mkSource [] (Some "boom"%string)) s0 = Ended (Caught "boom"%string) s'
    /\ error s' = None
    /\ snd (next s') = Done.
Proof.
  eexists.
  destruct (PushBuffer_pull_drops_source_error (T := nat) 1 _ "boom"%string eq_refl)
    as (s' & H).
  exists s'. split; [reflexivity | exact H].
Defined.

(** The method on a source that yields two items and then throws: the
    consumer reads the two items and then a normal completion. *)
Example PushBuffer_pull_then_read_all :
  exists s0 s' : PushBuffer.t nat string,
    new 3 = Returns s0
    /\ pull (mkSource [1%nat; 2%nat] (Some "boom"%string)) s0
       = Ended (Caught "boom"%string) s'
    /\ snd (next s') = Yield 1%nat
    /\ snd (next (fst (next s'))) = Yield 2%nat
    /\ snd (next (fst (next (fst (next s'))))) = Done.
Proof. do 2 eexists. split; [reflexivity|]. split; [reflexivity|]. repeat split. Qed.

(** The function on the same source: the two items and then the error. *)
Example PushBuffer_pull_into_then_read_all :
  exists s0 s' : PushBuffer.t nat string,
    new 3 = Returns s0
    /\ pull_into (mkSource [1%nat; 2%nat] (Some "boom"%string)) s0
       = Ended (Caught "boom"%string) s'
    /\ snd (next s') = Yield 1%nat
    /\ snd (next (fst (next s'))) = Yield 2%nat
    /\ snd (next (fst (next (fst (next s'))))) = Throw "boom"%string.
Proof. do 2 eexists. split; [reflexivity|]. split; [reflexivity|]. repeat split. Qed.

(** C7 on a buffer of size 1. *)
Lemma PushBuffer_second_iteration_witness :
  exists s0 : PushBuffer.t nat string,
    new 1 = Returns s0
    /\ asyncIterator (fst (next s0))
       = Throws (TypeError "this.constructor.Error is not a constructor").
Proof.
  eexists. split; [reflexivity|].
  destruct (PushBuffer_second_iteration_raises_TypeError (T := nat) (Error := string)
              1 _ eq_refl) as (_ & H & _).
  exact H.
Defined.

End ConcreteRuns.

Section ConcreteRouting.

Import OrderingUtil Examples.

(** C9 on three messages of two publishers. *)
Lemma OrderingUtil_routes_by_chain_key_witness :
  wellFormed [Add m1; Add m3; MarkMessageExplicitly m2]
  /\ sameChain (run [Add m1; Add m3; MarkMessageExplicitly m2] (new 10 None None None)) m1 m2
  /\ ~ sameChain (run [Add m1; Add m3; MarkMessageExplicitly m2] (new 10 None None None)) m1 m3.
Proof.
  assert (WF : wellFormed [Add m1; Add m3; MarkMessageExplicitly m2]).
  { intros m H. cbn in H.
    repeat (apply elem_of_cons in H as [-> | H]); try reflexivity.
    now apply elem_of_nil in H. }
  split; [exact WF|].
  destruct (OrderingUtil_routes_by_chain_key 10 None None None _ WF) as [H _].
  assert (I1 : m1 ∈ messages [Add m1; Add m3; MarkMessageExplicitly m2])
    by (cbn; apply elem_of_cons; auto).
  assert (I2 : m2 ∈ messages [Add m1; Add m3; MarkMessageExplicitly m2])
    by (cbn; do 2 (apply elem_of_cons; right); apply elem_of_cons; auto).
  assert (I3 : m3 ∈ messages [Add m1; Add m3; MarkMessageExplicitly m2])
    by (cbn; apply elem_of_cons; right; apply elem_of_cons; auto).
  split.
  - apply (H m1 m2 I1 I2). reflexivity.
  - intros S. apply (H m1 m3 I1 I3) in S. discriminate S.
Defined.

(** Without the fixed length of the publisher id the key would not tell
    the pairs apart. *)
Example chainKey_needs_fixed_length :
  chainKey "0xa" "bc" = chainKey "0xab" "c" /\ ("0xa", "bc") <> ("0xab", "c").
Proof. split; [reflexivity | discriminate]. Qed.

End ConcreteRouting.

Section ConcretePipeline.

Import Pipeline.

(** Three stages on a pipeline over lists of numbers: the [pipeBefore] stage
    runs first although it was given last. *)
Example Pipeline_composition_order_example :
  exists p : Pipeline.t (list nat) string,
    pipings [Pipe (map S); Pipe (cons 0%nat); PipeBefore (map (Nat.mul 2))]
            (new [1%nat; 2%nat] None) = Returns p
    /\ composed p = [0; 3; 5]%nat.
Proof. eexists. split; reflexivity. Qed.

(** An upstream error and a [return()] race: [cleanup] is called twice, with
    and without an error; [onFinally] fires once, with the error. *)
Example Pipeline_teardown_race_example :
  let p := run [IterateStart; ReturnStart; Cleanup (Some "boom"%string); IterateFinally;
                Cleanup None; Continue None; Continue None; Cleanup None;
                Continue None; Continue None]
               (new (Gen := list nat) [] None) in
  Signal.fired (onFinally p) = [Some "boom"%string]
  /\ Signal.fired (onBeforeFinally p) = [tt]
  /\ cleanupCall p = POnce.fulfilled tt
  /\ sourceReturned p = 1%nat.
Proof. repeat split. Qed.



End ConcretePipeline.

(** * Further properties *)

(** ** PushBuffer: reading *)

Section PushBufferReading.

Context {T Error : Type}.
Implicit Types (s : PushBuffer.t T Error) (v : PushBuffer.Item T Error).

Import PushBuffer.

Ltac rd_unfold :=
  cbv [request next return_ throw outer inner afterInner epilogue finally
    end_ endWrite lock clear updateWriteGate isFull isDone isWritable isAwaiting
    pushPending length set_buffer set_writeGate set_readGate set_error
    set_isIterating set_point set_queue
    buffer bufferSize writeGate readGate error isIterating point queue
    Gate.setOpenState Gate.open Gate.close Gate.lock Gate.check Gate.release
    Gate.isLocked Gate.state Gate.waiter Gate.wake Gate.attended fst snd negb andb orb] in *.

Ltac rd_cases :=
  repeat match goal with
         | |- context [Z.leb ?a ?b] => destruct (Z.leb a b)
         | |- context [match ?x with _ => _ end] => is_var x; destruct x
         end; cbn in *.

Lemma next_value (x : T) rest s :
  readable s -> buffer s = Value x :: rest ->
  snd (next s) = Yield x
  /\ readable (fst (next s))
  /\ buffer (fst (next s)) = rest
  /\ error (fst (next s)) = error s
  /\ Gate.isLocked (writeGate (fst (next s))) = Gate.isLocked (writeGate s).
Proof.
  intros [R P] B. destruct s as [b n [ws ww] [rs rw] e it p q].
  cbn in R, P, B. subst b. unfold readable.
  destruct P as [-> | ->]; destruct rs; try discriminate; rd_unfold;
    destruct (n <=? Z.of_nat (List.length rest)); destruct ws; cbn; auto.
Qed.

Lemma next_error_item (e : Error) rest s :
  readable s -> buffer s = Err e :: rest ->
  snd (next s) = Throw e
  /\ point (fst (next s)) = Completed
  /\ buffer (fst (next s)) = []
  /\ isDone (fst (next s)) = true.
Proof.
  intros [R P] B. destruct s as [b n [ws ww] [rs rw] e0 it p q].
  cbn in R, P, B. subst b.
  destruct P as [-> | ->]; destruct rs; try discriminate; rd_unfold;
    destruct (n <=? Z.of_nat (List.length rest)); destruct ws; cbn; auto.
Qed.

Lemma next_drained s :
  readable s -> buffer s = [] -> Gate.isLocked (writeGate s) = true ->
  snd (next s) = match error s with Some e => Throw e | None => Done end
  /\ point (fst (next s)) = Completed
  /\ buffer (fst (next s)) = []
  /\ isDone (fst (next s)) = true.
Proof.
  intros [R P] B W. destruct s as [b n [ws ww] [rs rw] e0 it p q].
  cbn in R, P, B, W. subst b.
  destruct P as [-> | ->]; destruct rs; try discriminate;
    destruct ws; try discriminate; rd_unfold; destruct e0; cbn; auto.
Qed.

Lemma reads_app j k s : reads (j + k) s = reads j s ++ reads k (afterReads j s).
Proof.
  revert s. induction j as [|j IH]; intros s; [reflexivity|].
  cbn [reads afterReads Nat.add app]. now rewrite IH.
Qed.

Lemma afterReads_app j k s : afterReads (j + k) s = afterReads k (afterReads j s).
Proof.
  revert s. induction j as [|j IH]; intros s; [reflexivity|].
  cbn [afterReads Nat.add]. now rewrite IH.
Qed.

Lemma next_Completed s : point s = Completed -> next s = (s, Done).
Proof. intros P. unfold next. now rewrite request_Completed by exact P. Qed.

Lemma reads_Completed k s :
  point s = Completed -> reads k s = repeat Done k /\ afterReads k s = s.
Proof.
  intros P. induction k as [|k [IH1 IH2]]; [auto|].
  cbn [reads afterReads repeat]. rewrite (next_Completed s P).
  cbn [fst snd]. now rewrite IH1, IH2.
Qed.

(** Buffered values are read in the order they were buffered. *)
Lemma reads_values (xs : list T) : forall rest s,
  readable s -> buffer s = map Value xs ++ rest ->
  reads (List.length xs) s = map Yield xs
  /\ readable (afterReads (List.length xs) s)
  /\ buffer (afterReads (List.length xs) s) = rest
  /\ error (afterReads (List.length xs) s) = error s
  /\ Gate.isLocked (writeGate (afterReads (List.length xs) s))
     = Gate.isLocked (writeGate s).
Proof.
  induction xs as [|x xs IH]; intros rest s R B; [cbn; auto|].
  destruct (next_value x (map Value xs ++ rest) s R B) as (N & R' & B' & E' & W').
  destruct (IH rest (fst (next s)) R' B') as (IH1 & IH2 & IH3 & IH4 & IH5).
  cbn [List.length reads afterReads map]. rewrite N, IH1, IH3, IH4, IH5, E', W'. auto.
Qed.

Lemma pushAll_writable (vs : list (Item T Error)) : forall s,
  isWritable s = true ->
  buffer (fst (pushAll vs s)) = buffer s ++ vs
  /\ isWritable (fst (pushAll vs s)) = true
  /\ point (fst (pushAll vs s)) = point s
  /\ error (fst (pushAll vs s)) = error s
  /\ bufferSize (fst (pushAll vs s)) = bufferSize s.
Proof.
  induction vs as [|v vs IH]; intros s W.
  - cbn. now rewrite app_nil_r.
  - rewrite pushAll_cons. cbn [fst].
    destruct (push_writable v s W) as (Hb & Hn & Hw & _).
    destruct (IH (fst (push v s)) Hw) as (B & W' & P & E & N).
    rewrite B, W', P, E, N, Hb, Hn, point_push, error_push, <- app_assoc. auto.
Qed.

Lemma readable_endWrite err s : readable s -> readable (endWrite err s).
Proof.
  intros [R P]. unfold readable. rewrite point_endWrite. split; [|exact P].
  unfold endWrite. destruct err, (error s); cbn; now rewrite Gate_isLocked_open.
Qed.

Lemma writable_readable s :
  isWritable s = true -> point s = SuspendedStart \/ point s = SuspendedYield ->
  readable s.
Proof.
  unfold isWritable, readable. intros W P. apply andb_true_iff in W as [_ W].
  apply negb_true_iff in W. auto.
Qed.

Lemma endWrite_writeLocked err s : Gate.isLocked (writeGate (endWrite err s)) = true.
Proof. unfold endWrite. destruct err, (error s); cbn; apply Gate_isLocked_lock. Qed.

Lemma buffer_endWrite err s : buffer (endWrite err s) = buffer s.
Proof. unfold endWrite. now destruct err, (error s). Qed.

Lemma error_endWrite err s :
  error (endWrite err s) = match error s with Some e => Some e | None => err end.
Proof.
  unfold endWrite. destruct err; destruct (error s) eqn:E; cbn; rewrite ?E; reflexivity.
Qed.

(** After the writes ended, a consumer reads what is buffered, in order,
    then the recorded error if there is one, and then completions. *)
Lemma reads_after_endWrite (xs : list T) s :
  readable s -> buffer s = map Value xs -> Gate.isLocked (writeGate s) = true ->
  reads (List.length xs + 2) s
  = map Yield xs ++ [match error s with Some e => Throw e | None => Done end; Done].
Proof.
  intros R B W.
  destruct (reads_values xs [] s R) as (V & R' & B' & E' & W').
  { now rewrite app_nil_r. }
  rewrite reads_app, V. f_equal.
  rewrite W in W'.
  destruct (next_drained _ R' B' W') as (N & P & _).
  cbn [reads]. rewrite N, E'. f_equal.
  now rewrite (next_Completed _ P).
Qed.

(** X1.  Values pushed into a new buffer, in any number, and then
    [endWrite(err?)]: the consumer reads the values in the order of the
    pushes, then [err] thrown once if one was given and a completion
    otherwise, and after that a completion. *)
Theorem PushBuffer_endWrite_flushes_in_order (n : Z) s0 (xs : list T) (err : option Error) :
  new n = Returns s0 ->
  reads (List.length xs + 2) (endWrite err (fst (pushAll (map Value xs) s0)))
  = map Yield xs ++ [match err with Some e => Throw e | None => Done end; Done].
Proof.
  intros H. apply new_Returns in H as [_ ->].
  set (s0 := mk _ _ _ _ _ _ _ _).
  destruct (pushAll_writable (map Value xs) s0 eq_refl) as (B & W & P & E & _).
  rewrite reads_after_endWrite.
  - now rewrite error_endWrite, E.
  - apply readable_endWrite, writable_readable; [exact W | rewrite P; auto].
  - now rewrite buffer_endWrite, B.
  - apply endWrite_writeLocked.
Qed.

(** X2.  An error pushed as an item: the consumer reads the values pushed
    before it, then the error thrown, then completions; what was pushed
    after the error is never read, and the buffer is done and empty. *)
Theorem PushBuffer_error_item_ends_iteration (n : Z) s0 (xs : list T) (e : Error)
        (later : list (Item T Error)) :
  new n = Returns s0 ->
  reads (List.length xs + 2) (fst (pushAll (map Value xs ++ Err e :: later) s0))
  = map Yield xs ++ [Throw e; Done]
  /\ isDone (afterReads (List.length xs + 2)
               (fst (pushAll (map Value xs ++ Err e :: later) s0))) = true
  /\ length (afterReads (List.length xs + 2)
               (fst (pushAll (map Value xs ++ Err e :: later) s0))) = 0%nat.
Proof.
  intros H. apply new_Returns in H as [_ ->].
  set (s0 := mk _ _ _ _ _ _ _ _).
  destruct (pushAll_writable (map Value xs ++ Err e :: later) s0 eq_refl)
    as (B & W & P & _).
  set (s1 := fst (pushAll (map Value xs ++ Err e :: later) s0)) in *.
  assert (R : readable s1) by (apply writable_readable; [exact W | rewrite P; auto]).
  destruct (reads_values xs (Err e :: later) s1 R B) as (V & R' & B' & _).
  destruct (next_error_item e later _ R' B') as (N & Pt & Bf & D).
  assert (A : afterReads (List.length xs + 2) s1
              = fst (next (afterReads (List.length xs) s1))).
  { rewrite afterReads_app. cbn [afterReads]. now rewrite (next_Completed _ Pt). }
  rewrite reads_app, V, A. split; [|split].
  - f_equal. cbn [reads]. rewrite N. f_equal.
    now rewrite (next_Completed _ Pt).
  - exact D.
  - unfold length. now rewrite Bf.
Qed.

(** X3.  The first error recorded by [endWrite] is the one the consumer
    gets: a second [endWrite], with or without an error, does not replace
    it. *)
Theorem PushBuffer_endWrite_keeps_first_error (n : Z) s0 (xs : list T)
        (e1 : Error) (err2 : option Error) :
  new n = Returns s0 ->
  reads (List.length xs + 2)
        (endWrite err2 (endWrite (Some e1) (fst (pushAll (map Value xs) s0))))
  = map Yield xs ++ [Throw e1; Done].
Proof.
  intros H. apply new_Returns in H as [_ ->].
  set (s0 := mk _ _ _ _ _ _ _ _).
  destruct (pushAll_writable (map Value xs) s0 eq_refl) as (B & W & P & E & _).
  rewrite reads_after_endWrite.
  - now rewrite !error_endWrite, E.
  - do 2 apply readable_endWrite. apply writable_readable; [exact W | rewrite P; auto].
  - now rewrite !buffer_endWrite, B.
  - apply endWrite_writeLocked.
Qed.

(** ** PushBuffer: locked gates *)

Lemma locked_outer s :
  (Gate.isLocked (writeGate s) = true -> Gate.isLocked (writeGate (fst (outer s))) = true)
  /\ (Gate.isLocked (readGate s) = true -> Gate.isLocked (readGate (fst (outer s))) = true).
Proof.
  destruct s as [? ? [? ?] [? ?] ? ? ? ?]; rd_unfold; rd_cases;
    split; intros; first [reflexivity | assumption | discriminate].
Qed.

Lemma locked_inner s :
  (Gate.isLocked (writeGate s) = true -> Gate.isLocked (writeGate (fst (inner s))) = true)
  /\ (Gate.isLocked (readGate s) = true -> Gate.isLocked (readGate (fst (inner s))) = true).
Proof.
  destruct s as [? ? [? ?] [? ?] ? ? ? ?]; rd_unfold; rd_cases;
    split; intros; first [reflexivity | assumption | discriminate].
Qed.

Lemma locked_epilogue s :
  Gate.isLocked (writeGate (fst (epilogue s))) = true
  /\ Gate.isLocked (readGate (fst (epilogue s))) = true.
Proof.
  destruct s as [? ? [? ?] [? ?] ? ? ? ?]; rd_unfold; rd_cases;
    split; intros; first [reflexivity | assumption | discriminate].
Qed.

Lemma locked_finally s :
  Gate.isLocked (writeGate (finally s)) = true
  /\ Gate.isLocked (readGate (finally s)) = true.
Proof.
  destruct s as [? ? [? ?] [? ?] ? ? ? ?]; rd_unfold; rd_cases;
    split; intros; first [reflexivity | assumption | discriminate].
Qed.


Lemma keepsLocks_refl s : keepsLocks s s.
Proof. split; auto. Qed.

Lemma keepsLocks_trans s1 s2 s3 : keepsLocks s1 s2 -> keepsLocks s2 s3 -> keepsLocks s1 s3.
Proof. unfold keepsLocks. intuition. Qed.

Lemma keepsLocks_request r s : keepsLocks s (fst (request r s)).
Proof.
  unfold request.
  destruct (point s); destruct r; cbn [fst];
    try exact (locked_outer (set_isIterating true s));
    try exact (locked_inner s);
    try (split; intros _; apply locked_finally);
    try apply keepsLocks_refl;
    split; intros H; exact H.
Qed.

Lemma keepsLocks_set_queue q s : keepsLocks s (set_queue q s).
Proof. split; intros H; exact H. Qed.

Lemma keepsLocks_drain q : forall s acc, keepsLocks s (fst (drain q s acc)).
Proof.
  induction q as [|r q IH]; intros s acc; cbn [drain].
  - apply keepsLocks_set_queue.
  - pose proof (keepsLocks_request r (set_queue [] s)) as K.
    destruct (request r (set_queue [] s)) as [s1 res]. cbn [fst] in K.
    assert (K' : keepsLocks s s1)
      by (eapply keepsLocks_trans; [apply (keepsLocks_set_queue []) | exact K]).
    destruct (isAwaiting s1).
    + eapply keepsLocks_trans; [exact K' | apply keepsLocks_set_queue].
    + eapply keepsLocks_trans; [exact K' | apply IH].
Qed.

Lemma keepsLocks_resume s s' rs : resume s = Some (s', rs) -> keepsLocks s s'.
Proof.
  unfold resume.
  destruct (point s); try discriminate.
  destruct (Gate.waiter (readGate s)) as [| |ok]; try discriminate.
  set (s0 := set_readGate (Gate.release (readGate s)) s).
  assert (K0 : keepsLocks s s0) by (split; [auto | destruct s as [? ? ? [[] ?] ? ? ? ?]; auto]).
  assert (K1 : keepsLocks s0 (fst (if ok then outer s0 else epilogue s0))).
  { destruct ok; [apply locked_outer | split; intros _; apply locked_epilogue]. }
  destruct (if ok then outer s0 else epilogue s0) as [s1 res]. cbn [fst] in K1.
  destruct (isAwaiting s1).
  - intros [= <- <-]. exact (keepsLocks_trans _ _ _ K0 K1).
  - intros [= H]. pose proof (keepsLocks_drain (queue s) s1 [res]) as D.
    unfold s0 in H. cbn [queue set_readGate] in H. rewrite H in D.
    exact (keepsLocks_trans _ _ _ K0 (keepsLocks_trans _ _ _ K1 D)).
Qed.

Lemma keepsLocks_push v s : keepsLocks s (fst (push v s)).
Proof.
  destruct (isWritable s) eqn:W.
  - unfold isWritable in W. apply andb_true_iff in W as [W1 W2].
    apply negb_true_iff in W1, W2. split; congruence.
  - rewrite push_not_writable by exact W. apply keepsLocks_refl.
Qed.

Lemma keepsLocks_end err s : keepsLocks s (end_ err s).
Proof.
  split; intros _; destruct err; cbn; apply Gate_isLocked_lock.
Qed.

Lemma keepsLocks_endWrite err s : keepsLocks s (endWrite err s).
Proof.
  split; intros H.
  - apply endWrite_writeLocked.
  - unfold endWrite. destruct err, (error s); cbn; now rewrite Gate_isLocked_open.
Qed.

Lemma keepsLocks_step op s : keepsLocks s (step op s).
Proof.
  destruct op; cbn [step].
  - apply keepsLocks_push.
  - apply keepsLocks_request.
  - destruct (resume s) as [[s' rs]|] eqn:R;
      [eapply keepsLocks_resume; eauto | apply keepsLocks_refl].
  - eapply keepsLocks_trans; [apply (keepsLocks_end None) | apply keepsLocks_request].
  - eapply keepsLocks_trans; [apply (keepsLocks_endWrite (Some err)) | apply keepsLocks_request].
  - apply keepsLocks_end.
  - apply keepsLocks_endWrite.
  - split; intros _; cbn; apply Gate_isLocked_lock.
  - split; intros H; exact H.
Qed.

Lemma keepsLocks_run ops : forall s, keepsLocks s (run ops s).
Proof.
  induction ops as [|op ops IH]; intros s; [apply keepsLocks_refl|].
  change (run (op :: ops) s) with (run ops (step op s)).
  eapply keepsLocks_trans; [apply keepsLocks_step | apply IH].
Qed.

Lemma closes_writeLocked op s :
  closes op = true -> Gate.isLocked (writeGate (step op s)) = true.
Proof.
  destruct op; try discriminate; intros _; cbn [step].
  - apply (keepsLocks_request ReqReturn (end_ None s)). cbn. apply Gate_isLocked_lock.
  - apply (keepsLocks_request (ReqThrow err) (endWrite (Some err) s)).
    apply endWrite_writeLocked.
  - destruct err; cbn; apply Gate_isLocked_lock.
  - apply endWrite_writeLocked.
  - cbn. apply Gate_isLocked_lock.
Qed.

(** X4.  After [end], [endWrite], [lock], [return] or [throw], on any
    buffer, every [push] returns false and changes nothing, whatever is
    called in between: writing never reopens. *)
Theorem PushBuffer_push_rejected_after_close s (c : Op T Error) (ops : list (Op T Error)) v :
  closes c = true ->
  push v (run ops (step c s)) = (run ops (step c s), Some false).
Proof.
  intros C. apply push_not_writable.
  pose proof (closes_writeLocked c s C) as W.
  apply (keepsLocks_run ops) in W. unfold isWritable. now rewrite W.
Qed.

Lemma next_readLocked s :
  Gate.isLocked (readGate s) = true -> forall x, snd (next s) <> Yield x.
Proof.
  intros R x. destruct s as [b n [ws ww] [rs rw] e it p q].
  destruct rs; try discriminate.
  destruct p; rd_unfold; destruct b as [|[]]; destruct ws, e; cbn; discriminate.
Qed.

Lemma resume_readLocked s s' rs :
  Gate.isLocked (readGate s) = true -> resume s = Some (s', rs) ->
  forall x, Yield x ∉ rs.
Proof.
  intros R H x. unfold resume in H.
  destruct (point s); try discriminate.
  destruct (Gate.waiter (readGate s)) as [| |ok] eqn:W; try discriminate.
  set (s0 := set_readGate (Gate.release (readGate s)) s) in *.
  assert (E : (if ok then outer s0 else epilogue s0) = epilogue s0).
  { destruct ok; [|reflexivity]. unfold outer, s0. cbn [readGate set_readGate].
    destruct s as [? ? ? [[] ?] ? ? ? ?]; try discriminate; reflexivity. }
  rewrite E in H.
  assert (P : point (fst (epilogue s0)) = Completed)
    by (unfold epilogue; destruct (error s0); reflexivity).
  assert (Q : forall y, snd (epilogue s0) <> Yield y)
    by (unfold epilogue; destruct (error s0); discriminate).
  destruct (epilogue s0) as [s1 res]. cbn [fst snd] in P, Q.
  unfold isAwaiting in H. rewrite P in H. rewrite drain_Completed in H by exact P.
  injection H as _ <-. intros I. cbn [app] in I. apply elem_of_cons in I as [I | I].
  - exact (Q x (eq_sym I)).
  - apply list_elem_of_fmap in I as (r & Hr & _). destruct r; discriminate.
Qed.

(** X5.  A buffer that is done stays done, and none of its buffered
    values is delivered any more: neither a later [next()] nor a read that
    was waiting yields a value, whatever is called in between. *)
Theorem PushBuffer_done_is_final s (ops : list (Op T Error)) :
  isDone s = true ->
  isDone (run ops s) = true
  /\ (forall x, snd (next (run ops s)) <> Yield x)
  /\ (forall s' rs x, resume (run ops s) = Some (s', rs) -> Yield x ∉ rs).
Proof.
  intros D. unfold isDone in D. apply andb_true_iff in D as [W R].
  destruct (keepsLocks_run ops s) as [KW KR].
  specialize (KW W). specialize (KR R).
  split; [unfold isDone; now rewrite KW, KR|]. split.
  - now apply next_readLocked.
  - intros s' rs x H. eapply resume_readLocked; eauto.
Qed.

(** ** PushBuffer: a waiting consumer, a waiting producer *)

(** With nothing buffered and writing not ended, a read waits on the read
    gate and leaves the write gate as it is. *)
Lemma next_waits s :
  readable s -> buffer s = [] -> Gate.isLocked (writeGate s) = false ->
  snd (next s) = Pending
  /\ point (fst (next s)) = AwaitingRead
  /\ Gate.waiter (readGate (fst (next s))) = Gate.Waiting
  /\ Gate.isLocked (readGate (fst (next s))) = false
  /\ writeGate (fst (next s)) = writeGate s
  /\ buffer (fst (next s)) = []
  /\ queue (fst (next s)) = queue s.
Proof.
  intros [R P] B W. destruct s as [b n [ws ww] [rs rw] e it p q].
  cbn in R, P, B, W. subst b.
  destruct P as [-> | ->]; destruct rs; try discriminate;
    destruct ws; try discriminate; rd_unfold; repeat split.
Qed.

(** X6.  When nothing is buffered and writing has not ended, [next()] does
    not settle; the next [push] of a value wakes the waiting consumer, and
    its read then yields exactly that value and leaves the buffer empty. *)
Theorem PushBuffer_waiting_read_gets_next_push s (x : T) :
  isWritable s = true ->
  point s = SuspendedStart \/ point s = SuspendedYield ->
  buffer s = [] -> queue s = [] ->
  snd (next s) = Pending
  /\ exists s',
      resume (fst (push (Value x) (fst (next s)))) = Some (s', [Yield x])
      /\ buffer s' = []
      /\ point s' = SuspendedYield
      /\ isWritable s' = true.
Proof.
  intros W P B Q.
  pose proof (writable_readable s W P) as R.
  unfold isWritable in W. apply andb_true_iff in W as [W1 _].
  apply negb_true_iff in W1.
  destruct (next_waits s R B W1) as (N & Pt & Wt & RL & WG & Bf & Qu).
  split; [exact N|].
  rewrite Q in Qu. rewrite <- WG in W1.
  remember (fst (next s)) as s1 eqn:Hs1.
  clear - Pt Wt RL Bf Qu W1.
  destruct s1 as [b n [ws ww] [rs rw] e it p q].
  cbn in Pt, Wt, RL, Bf, Qu, W1. subst b p rw q.
  destruct rs; try discriminate; destruct ws; try discriminate;
    unfold push, resume; rd_unfold; cbn;
    repeat match goal with
           | |- context [Z.leb ?a ?b] => destruct (Z.leb a b); cbn
           end; eauto 6.
Qed.

(** Pushes that fill a writable buffer exactly: all items are buffered and
    the promise of the last push is pending. *)
Lemma pushAll_full (vs : list (Item T Error)) s :
  isWritable s = true -> vs <> [] ->
  Z.of_nat (length s + List.length vs) = bufferSize s ->
  buffer (fst (pushAll vs s)) = buffer s ++ vs
  /\ isWritable (fst (pushAll vs s)) = true
  /\ pushPending (fst (pushAll vs s)) = true
  /\ snd (pushAll vs s) = repeat (Some true) (List.length vs - 1) ++ [None].
Proof.
  intros W NE L.
  destruct (exists_last NE) as (vs' & v & ->).
  rewrite length_app in L |- *. cbn [List.length] in L |- *.
  replace (List.length vs' + 1 - 1)%nat with (List.length vs') by lia.
  rewrite pushAll_app. cbn [fst snd].
  destruct (pushAll_below vs' s W) as (R & B & Sz & W'); [lia|].
  set (s1 := fst (pushAll vs' s)) in *.
  rewrite pushAll_cons. cbn [pushAll fst snd].
  destruct (push_writable v s1 W') as (Hb & Hn & Hw & Hr & Hp).
  assert (F : (Z.of_nat (S (length s1)) <? bufferSize s1) = false).
  { apply Z.ltb_ge. unfold length in *. rewrite B, Sz, length_app. lia. }
  rewrite F in Hr, Hp. rewrite Hb, B, Hw, Hp, Hr, R, <- app_assoc. auto.
Qed.

(** X7.  [clear()] on a full buffer whose producer is waiting drops the
    items but wakes nobody: the promise of the blocked [push] stays
    pending, a consumer that reads next waits as well, and neither is
    resumed until another [push] or a call that ends the buffer. *)
Theorem PushBuffer_clear_leaves_push_pending (n : Z) s0 (vs : list (Item T Error)) :
  new n = Returns s0 ->
  Z.of_nat (List.length vs) = n ->
  length (clear (fst (pushAll vs s0))) = 0%nat
  /\ pushPending (clear (fst (pushAll vs s0))) = true
  /\ snd (next (clear (fst (pushAll vs s0)))) = Pending
  /\ pushPending (fst (next (clear (fst (pushAll vs s0))))) = true
  /\ resume (fst (next (clear (fst (pushAll vs s0))))) = None.
Proof.
  intros H L. apply new_Returns in H as [N ->].
  set (s0 := mk _ _ _ _ _ _ _ _).
  destruct (pushAll_full vs s0 eq_refl) as (B & W & Pn & _).
  { intros ->. cbn in L. lia. }
  { cbn. lia. }
  destruct (pushAll_writable vs s0 eq_refl) as (_ & _ & P & _).
  set (s1 := fst (pushAll vs s0)) in *.
  assert (R : readable (clear s1)).
  { apply writable_readable; [exact W | cbn; rewrite P; auto]. }
  assert (WL : Gate.isLocked (writeGate (clear s1)) = false).
  { unfold isWritable in W. apply andb_true_iff in W as [W1 _].
    now apply negb_true_iff in W1. }
  destruct (next_waits (clear s1) R eq_refl WL) as (Nx & Pt & Wt & _ & WG & _).
  repeat split; auto.
  - unfold pushPending. rewrite WG. exact Pn.
  - unfold resume. now rewrite Pt, Wt.
Qed.

(** ** PushBuffer: pulling *)

(** While the pushes stay below the size of the buffer the loop goes on. *)
Lemma pull_loop_below stop (xs : list T) : forall rest fail s,
  (forall s1, isWritable s1 = true -> stop true s1 = false) ->
  isWritable s = true ->
  Z.of_nat (length s + List.length xs) < bufferSize s ->
  pull_loop stop (xs ++ rest) fail s
  = pull_loop stop rest fail (fst (pushAll (map Value xs) s)).
Proof.
  induction xs as [|x xs IH]; intros rest fail s St W L; [reflexivity|].
  cbn [app pull_loop map]. rewrite pushAll_cons. cbn [fst].
  destruct (push_writable (Value x) s W) as (Hb & Hn & Hw & Hr & _).
  cbn [List.length] in L.
  assert (T1 : (Z.of_nat (S (length s)) <? bufferSize s) = true) by (apply Z.ltb_lt; lia).
  rewrite T1 in Hr.
  destruct (push (Value x) s) as [s1 r]. cbn [fst snd] in *. subst r.
  rewrite (St s1 Hw). apply IH; auto.
  unfold length in *. rewrite Hb, Hn, length_app. cbn [List.length]. lia.
Qed.

Lemma pull_loop_all stop (xs : list T) fail s :
  (forall s1, isWritable s1 = true -> stop true s1 = false) ->
  isWritable s = true ->
  Z.of_nat (length s + List.length xs) < bufferSize s ->
  pull_loop stop xs fail s
  = Ended (match fail with Some e => Caught e | None => Exhausted end)
          (fst (pushAll (map Value xs) s)).
Proof.
  intros St W L. rewrite <- (app_nil_r xs) at 1.
  rewrite (pull_loop_below stop xs [] fail s St W L). now destruct fail.
Qed.

Lemma method_stop_writable s1 : isWritable s1 = true -> method_stop true s1 = false.
Proof. unfold method_stop. now intros ->. Qed.

Lemma function_stop_writable s1 : isWritable s1 = true -> function_stop true s1 = false.
Proof. reflexivity. Qed.

(** X8.  A source with fewer items than the size of a new buffer: both
    [pull]s push every item and end the writes, and the consumer reads the
    items in the order of the source.  After the items, the consumer of the
    function [pull(src, dest)] reads the failure of the source if it
    failed, and the consumer of the method reads a completion. *)
Theorem PushBuffer_pull_delivers_in_order (n : Z) s0 (xs : list T) (fail : option Error) :
  new n = Returns s0 ->
  Z.of_nat (List.length xs) < n ->
  (exists s',
     pull_into (mkSource xs fail) s0
     = Ended (match fail with Some e => Caught e | None => Exhausted end) s'
     /\ reads (List.length xs + 2) s'
        = map Yield xs ++ [match fail with Some e => Throw e | None => Done end; Done])
  /\ (exists s',
     pull (mkSource xs fail) s0
     = Ended (match fail with Some e => Caught e | None => Exhausted end) s'
     /\ reads (List.length xs + 2) s' = map Yield xs ++ [Done; Done]).
Proof.
  intros H L. apply new_Returns in H as [_ ->].
  set (s0 := mk _ _ _ _ _ _ _ _).
  destruct (pushAll_writable (map Value xs) s0 eq_refl) as (B & W & P & E & _).
  set (s1 := fst (pushAll (map Value xs) s0)) in *.
  assert (R : readable s1) by (apply writable_readable; [exact W | rewrite P; auto]).
  split.
  - change (pull_into (mkSource xs fail) s0)
      with (function_after (pull_loop function_stop xs fail s0)).
    rewrite (pull_loop_all function_stop xs fail s0 function_stop_writable eq_refl)
      by (cbn; lia).
    fold s1. destruct fail as [e|]; cbn [function_after];
      eexists; (split; [reflexivity|]).
    + rewrite reads_after_endWrite.
      * now rewrite !error_endWrite, E.
      * now do 2 apply readable_endWrite.
      * now rewrite !buffer_endWrite, B.
      * apply endWrite_writeLocked.
    + rewrite reads_after_endWrite.
      * now rewrite !error_endWrite, E.
      * now apply readable_endWrite.
      * now rewrite !buffer_endWrite, B.
      * apply endWrite_writeLocked.
  - change (pull (mkSource xs fail) s0)
      with (method_after (pull_loop method_stop xs fail s0)).
    rewrite (pull_loop_all method_stop xs fail s0 method_stop_writable eq_refl)
      by (cbn; lia).
    fold s1. destruct fail as [e|]; cbn [method_after];
      eexists; (split; [reflexivity|]);
      (rewrite reads_after_endWrite;
       [ now rewrite !error_endWrite, E
       | now apply readable_endWrite
       | now rewrite !buffer_endWrite, B
       | apply endWrite_writeLocked ]).
Qed.

(** X9.  A source with at least as many items as the size [n] of a new
    buffer: both [pull]s push the first [n] items and then wait for the
    promise of the last push; the buffer holds those [n] items in order and
    the items after them are still in the source. *)
Theorem PushBuffer_pull_waits_when_full (n : Z) s0 (xs : list T) (fail : option Error) :
  new n = Returns s0 ->
  n <= Z.of_nat (List.length xs) ->
  exists s',
    pull (mkSource xs fail) s0 = Blocked (mkSource (drop (Z.to_nat n) xs) fail) s'
    /\ pull_into (mkSource xs fail) s0 = Blocked (mkSource (drop (Z.to_nat n) xs) fail) s'
    /\ buffer s' = map Value (take (Z.to_nat n) xs)
    /\ pushPending s' = true.
Proof.
  intros H L. apply new_Returns in H as [N ->].
  set (s0 := mk _ _ _ _ _ _ _ _).
  set (k := Z.to_nat n).
  assert (K : (0 < k <= List.length xs)%nat) by (unfold k; lia).
  destruct (drop (k - 1) xs) as [|x rest] eqn:D.
  { apply (f_equal List.length) in D. rewrite length_drop in D. cbn in D. lia. }
  assert (X1 : xs = take (k - 1) xs ++ x :: rest) by (now rewrite <- D, take_drop).
  assert (X2 : drop k xs = rest).
  { replace k with ((k - 1) + 1)%nat by lia. rewrite <- drop_drop, D. reflexivity. }
  assert (X3 : take k xs = take (k - 1) xs ++ [x]).
  { replace k with (S (k - 1)) at 1 by lia. apply take_S_r.
    pose proof (lookup_drop xs (k - 1) 0) as LD. rewrite D, Nat.add_0_r in LD.
    now rewrite <- LD. }
  set (pre := take (k - 1) xs) in *.
  assert (LP : List.length pre = (k - 1)%nat) by (unfold pre; rewrite length_take; lia).
  destruct (pushAll_below (map Value pre) s0 eq_refl) as (_ & B & Sz & W).
  { cbn. rewrite length_map, LP. unfold k. lia. }
  set (s1 := fst (pushAll (map Value pre) s0)) in *.
  destruct (push_writable (Value x) s1 W) as (Hb & _ & _ & Hr & Hp).
  assert (F : (Z.of_nat (S (length s1)) <? bufferSize s1) = false).
  { apply Z.ltb_ge. unfold length. rewrite B, Sz. cbn. rewrite length_map, LP.
    unfold k. lia. }
  rewrite F in Hr, Hp.
  exists (fst (push (Value x) s1)).
  assert (PL : forall stop, (forall s2, isWritable s2 = true -> stop true s2 = false) ->
             pull_loop stop xs fail s0 = Blocked (mkSource rest fail) (fst (push (Value x) s1))).
  { intros stop St. rewrite X1.
    rewrite (pull_loop_below stop pre (x :: rest) fail s0 St eq_refl)
      by (cbn; rewrite LP; unfold k; lia).
    fold s1. cbn [pull_loop]. destruct (push (Value x) s1) as [s2 r].
    cbn [fst snd] in *. now subst r. }
  rewrite X2.
  change (pull (mkSource xs fail) s0) with (method_after (pull_loop method_stop xs fail s0)).
  change (pull_into (mkSource xs fail) s0)
    with (function_after (pull_loop function_stop xs fail s0)).
  rewrite (PL method_stop method_stop_writable), (PL function_stop function_stop_writable).
  cbn [method_after function_after].
  repeat split; auto.
  rewrite Hb, B, X3, map_app. reflexivity.
Qed.

End PushBufferReading.

(** ** Pipeline: the stage list and the source *)

Section PipelineTeardown.

Context {Gen Error : Type}.
Implicit Types (p : Pipeline.t Gen Error) (es : list (Pipeline.Event Error)).

Import Pipeline.

Ltac td_unfold :=
  cbv [tidy closing unfired firedWith step cleanup cleanup_enter cleanup_continue
    iterate_start iterate_finally return_start throw_start triggerBeforeFinallyOnce
    callSourceReturn POnce.pOnceWrap POnce.settle POnce.isSettled POnce.isStarted
    Signal.trigger Signal.triggerCount Signal.fired orElse clearTransforms getTransforms
    set_definition set_isIterating set_isCleaningUp set_cleanupCall set_cleanupAt
    set_cleanupError set_cleanupThrown set_onStart set_onBeforeFinally set_onFinally
    set_onError set_sourceReturned source transforms transformsBefore
    definition isIterating isCleaningUp cleanupCall cleanupAt cleanupError cleanupThrown
    onStart onBeforeFinally onFinally onError sourceReturned app] in *.

Ltac td_cases :=
  repeat match goal with
         | |- context [match ?x with _ => _ end] => is_var x; destruct x
         end.

Lemma isIterating_step e p : isIterating p = true -> isIterating (step e p) = true.
Proof.
  intros I. destruct p as [d it cu cc ca ce ct os [bn bf] onf oe sr].
  destruct e; td_unfold; td_cases; auto.
Qed.

Lemma isIterating_run es : forall p, isIterating p = true -> isIterating (run es p) = true.
Proof.
  induction es as [|e es IH]; intros p I; [exact I|].
  change (run (e :: es) p) with (run es (step e p)).
  apply IH. now apply isIterating_step.
Qed.

Lemma definition_step e p :
  definition (step e p) = definition p
  \/ definition (step e p) = clearTransforms (definition p).
Proof.
  destruct p as [d it cu cc ca ce ct os [bn bf] onf oe sr].
  destruct e; td_unfold; td_cases; auto.
Qed.

Lemma definition_run es : forall p,
  definition (run es p) = definition p
  \/ definition (run es p) = clearTransforms (definition p).
Proof.
  induction es as [|e es IH]; intros p; [now left|].
  change (run (e :: es) p) with (run es (step e p)).
  destruct (IH (step e p)) as [-> | ->]; destruct (definition_step e p) as [-> | ->]; auto.
Qed.

Lemma source_run es p : source (definition (run es p)) = source (definition p).
Proof. destruct (definition_run es p) as [-> | ->]; reflexivity. Qed.

(** Only the end of the body of [cleanup] changes the definition. *)
Lemma definition_kept_step e p :
  cleanupAt (step e p) <> Returned -> definition (step e p) = definition p.
Proof.
  destruct p as [d it cu cc ca ce ct os [bn bf] onf oe sr].
  destruct e; td_unfold; td_cases; auto; intros N; now contradiction N.
Qed.

Lemma definition_kept_run es : forall p,
  tidy p -> cleanupAt (run es p) <> Returned -> definition (run es p) = definition p.
Proof.
  induction es as [|e es IH]; intros p Tp N; [reflexivity|].
  change (run (e :: es) p) with (run es (step e p)) in *.
  pose proof (tidy_step e p Tp) as Tp'.
  rewrite (IH _ Tp' N). apply definition_kept_step.
  intros A. apply N. now apply Returned_run.
Qed.

Lemma tidy_pipings (cs : list (Piping Gen)) : forall p p',
  pipings cs p = Returns p' -> tidy p -> tidy p'.
Proof.
  induction cs as [|c cs IH]; intros p p' R Tp; cbn [pipings] in R.
  - now injection R as <-.
  - destruct (piping c p) as [q|x] eqn:Q; [|discriminate].
    apply (IH q p' R).
    destruct c; cbn [piping] in Q; unfold pipe, pipeBefore in Q;
      destruct (isIterating p); try discriminate; injection Q as <-; exact Tp.
Qed.

(** X10.  Once iteration has started, every later [pipe] and [pipeBefore]
    throws IllegalState, in every state of the teardown; the stage list is
    the one iteration started with as long as the body of [cleanup] has not
    ended, after that it is the same or empty, and the source is never
    replaced.  ([tidy] holds of every state of a pipeline: [tidy_new],
    [tidy_pipings], [tidy_run].) *)
Theorem Pipeline_stages_frozen_after_start p es (c : Piping Gen) :
  tidy p ->
  isIterating p = true ->
  (exists x, piping c (run es p) = Throws x /\ isIllegalState x = true)
  /\ (cleanupAt (run es p) <> Returned ->
      getTransforms (definition (run es p)) = getTransforms (definition p))
  /\ (getTransforms (definition (run es p)) = getTransforms (definition p)
      \/ getTransforms (definition (run es p)) = [])
  /\ source (definition (run es p)) = source (definition p).
Proof.
  intros Tp I. pose proof (isIterating_run es p I) as I'. split; [|split; [|split]].
  - destruct c; cbn [piping]; unfold pipe, pipeBefore; rewrite I';
      eexists; split; reflexivity.
  - intros N. now rewrite (definition_kept_run es p Tp N).
  - destruct (definition_run es p) as [-> | ->]; auto.
  - apply source_run.
Qed.

Lemma closing_new (src : Gen) d : closing (new (Error := Error) src d).
Proof. cbv. auto. Qed.

Lemma closing_step e p : tidy p -> closing p -> closing (step e p).
Proof.
  intros [_ Tc] C.
  destruct p as [d it cu cc ca ce ct os [bn bf] onf oe sr].
  destruct e as [err|thrown| | | |err]; td_unfold.
  - destruct ca, cc; try (destruct Tc; discriminate); try exact C;
      destruct err; destruct C as [-> ->]; eauto.
  - destruct ca; try destruct thrown; try exact C;
      first [ destruct C as (-> & e1 & -> & ->); split; reflexivity
            | destruct C as [-> ->]; repeat split; reflexivity
            | destruct bn; exact C
            | idtac ].
  - exact C.
  - destruct bn; exact C.
  - destruct cu; [exact C|]. destruct bn; exact C.
  - destruct cu; [exact C|]. destruct bn; exact C.
Qed.

Lemma closing_run es : forall p, tidy p -> closing p -> closing (run es p).
Proof.
  induction es as [|e es IH]; intros p Tp C; [exact C|].
  change (run (e :: es) p) with (run es (step e p)).
  apply IH; [now apply tidy_step | now apply closing_step].
Qed.

Lemma settled_Returned p :
  tidy p -> POnce.isSettled (cleanupCall p) = true -> cleanupAt p = Returned.
Proof.
  intros [_ Tc] St. destruct (cleanupAt p); try reflexivity;
    destruct Tc as [Tc _]; rewrite Tc in St; discriminate.
Qed.

(** The state once a started [cleanup] has run to its end, and later. *)
Lemma after_cleanup (src : Gen) d es t1 t2 t3 t4 es' error :
  firstCleanup es = Some error ->
  let p := run es' (run [Continue t1; Continue t2; Continue t3; Continue t4]
                        (run es (new src d))) in
  tidy p /\ closing p /\ cleanupAt p = Returned /\ cleanupError p = error.
Proof.
  intros F p.
  pose proof (tidy_run es _ (tidy_new src d)) as T0.
  pose proof (closing_run es _ (tidy_new src d) (closing_new src d)) as C0.
  pose proof (first_cleanup_wins es _ (tidy_new src d) eq_refl) as W.
  rewrite F in W. destruct W as [St E].
  set (p0 := run es (new src d)) in *.
  set (p1 := run [Continue t1; Continue t2; Continue t3; Continue t4] p0) in *.
  assert (T1 : tidy p1) by now apply tidy_run.
  assert (C1 : closing p1) by now apply closing_run.
  assert (S1 : POnce.isSettled (cleanupCall p1) = true) by now apply cleanup_settles.
  destruct (started_run [Continue t1; Continue t2; Continue t3; Continue t4] p0 St)
    as [St1 E1]. fold p1 in St1, E1.
  destruct (started_run es' p1 St1) as [_ E2]. fold p in E2.
  assert (T2 : tidy p) by now apply tidy_run.
  assert (C2 : closing p) by now apply closing_run.
  assert (S2 : POnce.isSettled (cleanupCall p) = true) by now apply settled_run.
  split; [exact T2|]. split; [exact C2|].
  split; [now apply settled_Returned | congruence].
Qed.

(** X11.  When [cleanup] was called at least once, then once its body has
    run to its end it has called [source.return(undefined)] exactly once and
    triggered [onError] exactly once if the first call had an error and not
    at all otherwise, however many more times [cleanup], [return()] and
    [throw()] are called.  (Counted are the calls made by [cleanup].) *)
Theorem Pipeline_cleanup_returns_source_once (src : Gen) d es t1 t2 t3 t4 es' error :
  firstCleanup es = Some error ->
  sourceReturned (run es' (run [Continue t1; Continue t2; Continue t3; Continue t4]
                               (run es (new src d)))) = 1%nat
  /\ onError (run es' (run [Continue t1; Continue t2; Continue t3; Continue t4]
                            (run es (new src d))))
     = match error with Some e => [e] | None => [] end.
Proof.
  intros F. destruct (after_cleanup src d es t1 t2 t3 t4 es' error F) as (_ & C & A & E).
  unfold closing in C. rewrite A in C. destruct C as (S & O).
  rewrite E in O. auto.
Qed.

Lemma cleared_new (src : Gen) d : cleared (new (Error := Error) src d).
Proof. intros A. discriminate A. Qed.

Lemma cleared_step e p :
  tidy p -> cleared p ->
  beforeFinallyFulfils e p = true -> finallyFulfils e p = true ->
  cleared (step e p).
Proof.
  intros Tp Cp Ok1 Ok2.
  destruct (cleanupAt p) eqn:A.
  6: { destruct (Returned_step e p Tp A) as (_ & _ & _ & D1 & _).
       intros _. rewrite D1. now apply Cp. }
  all: clear Cp; unfold cleared, beforeFinallyFulfils, finallyFulfils in *;
    rewrite A in Ok1, Ok2;
    destruct p as [d it cu cc ca ce ct os [bn bf] onf oe sr];
    destruct Tp as [_ Hc]; cbn in A; subst ca;
    destruct e as [err|thrown| | | |err]; td_unfold; td_cases;
    try discriminate; try (intros; discriminate); reflexivity.
Qed.

Lemma cleared_run es : forall p,
  tidy p -> cleared p ->
  always beforeFinallyFulfils es p = true -> always finallyFulfils es p = true ->
  cleared (run es p).
Proof.
  induction es as [|e es IH]; intros p Tp Cp Ok1 Ok2; [exact Cp|].
  change (run (e :: es) p) with (run es (step e p)).
  cbn [always] in Ok1, Ok2.
  apply andb_true_iff in Ok1 as [Ok1 Ok1']. apply andb_true_iff in Ok2 as [Ok2 Ok2'].
  apply IH; [now apply tidy_step | now apply cleared_step | exact Ok1' | exact Ok2'].
Qed.

(** X12.  When the promises of [onBeforeFinally.trigger()] and of
    [onFinally.trigger(error)] that [cleanup] awaits are not rejected, then
    after [cleanup] has run to its end the stage list of the pipeline is
    empty: what [iterate()] would compose is the bare source. *)
Theorem Pipeline_cleanup_clears_stages (src : Gen) d es t1 t2 t3 t4 es' error :
  firstCleanup es = Some error ->
  always beforeFinallyFulfils
         (es ++ [Continue t1; Continue t2; Continue t3; Continue t4]) (new src d) = true ->
  always finallyFulfils
         (es ++ [Continue t1; Continue t2; Continue t3; Continue t4]) (new src d) = true ->
  getTransforms (definition (run es' (run [Continue t1; Continue t2; Continue t3; Continue t4]
                                          (run es (new src d))))) = []
  /\ composed (run es' (run [Continue t1; Continue t2; Continue t3; Continue t4]
                            (run es (new src d))))
     = source (definition (new (Error := Error) src d)).
Proof.
  intros F Ok1 Ok2.
  pose proof (cleared_run _ _ (tidy_new src d) (cleared_new src d) Ok1 Ok2) as C.
  rewrite run_app in C.
  pose proof (tidy_run es _ (tidy_new src d)) as T0.
  pose proof (first_cleanup_wins es _ (tidy_new src d) eq_refl) as W.
  rewrite F in W. destruct W as [St _].
  set (p0 := run es (new src d)) in *.
  set (p1 := run [Continue t1; Continue t2; Continue t3; Continue t4] p0) in *.
  assert (T1 : tidy p1) by now apply tidy_run.
  assert (A1 : cleanupAt p1 = Returned)
    by (apply settled_Returned; [exact T1 | now apply cleanup_settles]).
  specialize (C A1).
  destruct (Returned_run es' p1 T1 A1) as (_ & _ & _ & D & _).
  assert (G : getTransforms (definition (run es' p1)) = []) by (rewrite D; exact C).
  split; [exact G|]. unfold composed. rewrite G. cbn [fold_left].
  unfold p1, p0. now rewrite !source_run.
Qed.

End PipelineTeardown.

(** ** pOnce with [reset()] *)

Section POnceRefFacts.

Context {ReturnType Reason : Type}.
Implicit Types (c : POnceRef.t ReturnType Reason)
         (es : list (POnceRef.Event ReturnType Reason)).

Import POnceRef.

Lemma settle_keeps_started (outcome : ReturnType + Reason) status :
  POnce.isStarted status = true -> POnce.isStarted (POnce.settle outcome status) = true.
Proof. destruct status, outcome; auto. Qed.

Lemma sound_pOnce : sound (pOnce (ReturnType := ReturnType) (Reason := Reason)).
Proof.
  split; [cbn; lia|]. split; [constructor|].
  intros i H. now apply elem_of_nil in H.
Qed.

Lemma sound_step e c : sound c -> sound (step e c).
Proof.
  intros (L & N & I). destruct e as [|i outcome|]; cbn [step].
  - unfold pOnceWrap.
    destruct (calls c !! currentCall c) as [[| | |]|] eqn:E; cbn [fst];
      try (split; [exact L | split; [exact N | exact I]]).
    split; [cbn; now rewrite length_insert|]. split.
    + cbn. apply NoDup_app. split; [exact N|]. split; [|apply NoDup_singleton].
      intros x Hx Hx'. apply list_elem_of_singleton in Hx'. subst x.
      destruct (I _ Hx) as (status & E' & St). rewrite E in E'.
      injection E' as <-. discriminate.
    + cbn. intros j Hj. apply elem_of_app in Hj as [Hj | Hj].
      * destruct (decide (currentCall c = j)) as [<- | NE].
        -- exists POnce.pending. split; [now apply list_lookup_insert_eq | reflexivity].
        -- rewrite list_lookup_insert_ne by exact NE. now apply I.
      * apply list_elem_of_singleton in Hj. subst j.
        exists POnce.pending. split; [now apply list_lookup_insert_eq | reflexivity].
  - unfold settle. destruct (calls c !! i) as [status|] eqn:E;
      [|split; [exact L | split; [exact N | exact I]]].
    split; [cbn; now rewrite length_insert|]. split; [exact N|].
    cbn. intros j Hj. destruct (I _ Hj) as (st & E' & St).
    destruct (decide (i = j)) as [<- | NE].
    + rewrite E in E'. injection E' as <-.
      exists (POnce.settle outcome status).
      split; [apply list_lookup_insert_eq; eapply lookup_lt_Some; eauto|].
      now apply settle_keeps_started.
    + exists st. now rewrite list_lookup_insert_ne by exact NE.
  - split; [cbn; rewrite length_app; cbn; lia|]. split; [exact N|].
    cbn. intros j Hj. destruct (I _ Hj) as (st & E' & St).
    exists st. split; [|exact St].
    rewrite lookup_app_l; [exact E' | eapply lookup_lt_Some; eauto].
Qed.

Lemma sound_run es : forall c, sound c -> sound (run es c).
Proof.
  induction es as [|e es IH]; intros c S; [exact S|].
  change (run (e :: es) c) with (run es (step e c)).
  apply IH. now apply sound_step.
Qed.

Lemma length_calls_run es : forall c,
  List.length (calls (run es c))
  = (List.length (calls c) + List.length (List.filter isReset es))%nat.
Proof.
  induction es as [|e es IH]; intros c; [cbn; lia|].
  change (run (e :: es) c) with (run es (step e c)). rewrite IH.
  destruct e as [|i outcome|]; cbn [step List.filter isReset List.length].
  - unfold pOnceWrap. destruct (calls c !! currentCall c) as [[| | |]|]; cbn;
      rewrite ?length_insert; lia.
  - unfold settle. destruct (calls c !! i); cbn; rewrite ?length_insert; lia.
  - cbn. rewrite length_app. cbn. lia.
Qed.

Lemma NoDup_bounded (l : list nat) (k : nat) :
  NoDup l -> (forall x, x ∈ l -> (x < k)%nat) -> (List.length l <= k)%nat.
Proof.
  intros N B. rewrite <- (length_seq k 0%nat) at 1. apply submseteq_length.
  apply NoDup_submseteq; [exact N|]. intros x Hx. apply elem_of_seq.
  specialize (B x Hx). lia.
Qed.

(** X13.  Whatever the order of the calls of the wrapper, of the
    settlements and of [reset()], [fn] runs at most once for each call
    object: at most once more than [reset()] was called, and at most once
    when it never was. *)
Theorem pOnce_runs_fn_once_per_reset es :
  NoDup (invoked (run es pOnce))
  /\ (List.length (invoked (run es pOnce)) <= 1 + List.length (List.filter isReset es))%nat.
Proof.
  destruct (sound_run es _ sound_pOnce) as (_ & N & I).
  split; [exact N|].
  pose proof (length_calls_run es pOnce) as L. cbn [calls pOnce List.length] in L.
  rewrite <- L. apply NoDup_bounded; [exact N|].
  intros x Hx. destruct (I x Hx) as (st & E & _). eapply lookup_lt_Some; eauto.
Qed.

Lemma Forall_settlesBefore_run (late : list (Event ReturnType Reason)) : forall c k,
  Forall (settlesBefore k) late ->
  calls c !! k = Some POnce.init -> currentCall c = k ->
  calls (run late c) !! k = Some POnce.init
  /\ currentCall (run late c) = k
  /\ invoked (run late c) = invoked c.
Proof.
  induction late as [|e late IH]; intros c k F E C; [auto|].
  change (run (e :: late) c) with (run late (step e c)).
  apply Forall_cons in F as [Fe F].
  destruct e as [|i outcome|]; cbn in Fe; try contradiction.
  cbn [step]. unfold settle.
  destruct (calls c !! i) as [status|] eqn:Ei.
  - destruct (IH (mk (<[i:=POnce.settle outcome status]> (calls c)) (currentCall c)
                     (invoked c)) k F) as (A & B & D); auto.
    cbn. rewrite list_lookup_insert_ne by lia. exact E.
  - now apply IH.
Qed.

(** X14.  After [reset()] the wrapper is as new: [isStarted()] is false and
    the next call runs [fn] again, for a new call object.  Settlements of
    calls that started before the [reset()] change nothing in that, however
    late they arrive. *)
Theorem pOnce_reset_rearms es (late : list (Event ReturnType Reason)) :
  Forall (settlesBefore (List.length (calls (run es pOnce)))) late ->
  isStarted (run late (reset (run es pOnce))) = false
  /\ snd (pOnceWrap (run late (reset (run es pOnce))))
     = Invokes (List.length (calls (run es pOnce)))
  /\ invoked (fst (pOnceWrap (run late (reset (run es pOnce)))))
     = invoked (run es pOnce) ++ [List.length (calls (run es pOnce))].
Proof.
  intros F. set (c := run es pOnce) in *.
  destruct (Forall_settlesBefore_run late (reset c) (List.length (calls c)) F)
    as (E & C & I).
  { cbn. now apply list_lookup_middle. }
  { reflexivity. }
  unfold isStarted, pOnceWrap. rewrite C, E. cbn. rewrite I. auto.
Qed.

Lemma cached_step (outcome : ReturnType + Reason) e c :
  isReset e = false ->
  currentCall c = 0%nat ->
  calls c !! 0%nat = Some (POnce.settle outcome POnce.pending) ->
  currentCall (step e c) = 0%nat
  /\ calls (step e c) !! 0%nat = Some (POnce.settle outcome POnce.pending)
  /\ invoked (step e c) = invoked c.
Proof.
  intros R C E. destruct e as [|i o|]; try discriminate; cbn [step].
  - unfold pOnceWrap. rewrite C, E. destruct outcome; cbn; auto.
  - unfold settle. destruct (calls c !! i) as [status|] eqn:Ei; [|auto].
    cbn. split; [exact C|]. split; [|reflexivity].
    destruct i as [|i].
    + rewrite E in Ei. injection Ei as <-.
      rewrite list_lookup_insert_eq by (eapply lookup_lt_Some; eauto).
      now destruct outcome, o.
    + now rewrite list_lookup_insert_ne by lia.
Qed.

(** X15.  Without [reset()], once the first call has settled every later
    call of the wrapper gets the outcome of the first (its value returned,
    or its reason thrown) and [fn] has run exactly once, whatever else is
    called or settles in between. *)
Theorem pOnce_caches_first_outcome (outcome : ReturnType + Reason) es :
  forallb (fun e => negb (isReset e)) es = true ->
  snd (pOnceWrap (run es (settle 0 outcome (fst (pOnceWrap pOnce)))))
  = match outcome with
    | inl value => ReturnsValue value
    | inr reason => ThrowsReason reason
    end
  /\ invoked (run es (settle 0 outcome (fst (pOnceWrap pOnce)))) = [0%nat].
Proof.
  intros NR.
  set (c0 := settle 0 outcome (fst (pOnceWrap pOnce))).
  assert (H : currentCall c0 = 0%nat
              /\ calls c0 !! 0%nat = Some (POnce.settle outcome POnce.pending)
              /\ invoked c0 = [0%nat]) by (cbn; auto).
  clearbody c0. revert c0 H.
  induction es as [|e es IH]; intros c0 (C & E & I).
  - cbn [run fold_left]. unfold pOnceWrap. rewrite C, E, I.
    destruct outcome; auto.
  - cbn [forallb] in NR. apply andb_true_iff in NR as [Re NR].
    apply negb_true_iff in Re.
    change (run (e :: es) c0) with (run es (step e c0)).
    destruct (cached_step outcome e c0 Re C E) as (C' & E' & I').
    apply IH; [exact NR|]. rewrite I'. auto.
Qed.

End POnceRefFacts.

(** ** tryInSequence *)

Section TryInSequenceFacts.

Context {T E : Type}.

Import Promises.

Lemma tryLoop_rejects (es : list (Thrown E)) : forall (rest : list (Task T E)) first k,
  tryLoop (map Rejects es ++ rest) first k
  = tryLoop rest (fold_left (fun f e => match f with Undefined => e | _ => f end) es first)
            (k + List.length es).
Proof.
  induction es as [|e es IH]; intros rest first k.
  - cbn. now rewrite Nat.add_0_r.
  - cbn [map app tryLoop fold_left List.length]. rewrite IH. f_equal. lia.
Qed.

Lemma first_kept (es : list (Thrown E)) (e : Thrown E) :
  e <> Undefined ->
  fold_left (fun f e => match f with Undefined => e | _ => f end) es e = e.
Proof.
  intros NE. induction es as [|e' es IH]; [reflexivity|].
  cbn [fold_left]. destruct e; try contradiction; exact IH.
Qed.

Lemma undefined_skipped k (es : list (Thrown E)) :
  fold_left (fun f e => match f with Undefined => e | _ => f end)
            (repeat Undefined k ++ es) Undefined
  = fold_left (fun f e => match f with Undefined => e | _ => f end) es Undefined.
Proof. induction k as [|k IH]; [reflexivity | exact IH]. Qed.

(** X16.  [tryInSequence] settles with the value of the first task that
    fulfils, whatever the tasks before it were rejected with, and does not
    call the tasks after it. *)
Theorem tryInSequence_first_success (es : list (Thrown E)) (value : T)
        (rest : list (Task T E)) :
  tryInSequence (map Rejects es ++ Fulfils value :: rest)
  = (Fulfils value, S (List.length es)).
Proof.
  unfold tryInSequence.
  destruct (map Rejects es ++ Fulfils value :: rest) eqn:D.
  { destruct es; discriminate. }
  rewrite <- D, tryLoop_rejects. reflexivity.
Qed.

(** X17.  When every task is rejected, [tryInSequence] has called them all
    and is rejected with the first reason that is not [undefined]; with no
    task at all it is rejected with the error 'no tasks'. *)
Theorem tryInSequence_all_rejected (k : nat) (e : Thrown E) (es : list (Thrown E)) :
  e <> Undefined ->
  tryInSequence (T := T) (map Rejects (repeat Undefined k ++ e :: es))
  = (Rejects e, (k + S (List.length es))%nat)
  /\ tryInSequence (T := T) (E := E) [] = (Rejects (PlainError "no tasks"), 0%nat).
Proof.
  intros NE. split; [|reflexivity].
  unfold tryInSequence.
  destruct (map Rejects (repeat Undefined k ++ e :: es)) eqn:D.
  { destruct k; discriminate. }
  rewrite <- D. rewrite <- (app_nil_r (map _ _)), tryLoop_rejects.
  cbn [tryLoop]. rewrite undefined_skipped. cbn [fold_left].
  rewrite first_kept by exact NE.
  rewrite length_app, repeat_length. reflexivity.
Qed.

End TryInSequenceFacts.

(** ** OrderingUtil: what a chain receives *)

Section OrderingUtilChains.

Import OrderingUtil.

Implicit Types (u : OrderingUtil.t) (m : StreamMessage) (c : OrderedMsgChain).

Lemma withKey_app key (l1 l2 : list StreamMessage) :
  withKey key (l1 ++ l2) = withKey key l1 ++ withKey key l2.
Proof. apply List.filter_app. Qed.

Lemma withKey_own m : withKey (keyOf m) [m] = [m].
Proof. unfold withKey. cbn. now rewrite bool_decide_eq_true_2. Qed.

Lemma withKey_other key m : keyOf m <> key -> withKey key [m] = [].
Proof. intros NE. unfold withKey. cbn. now rewrite bool_decide_eq_false_2. Qed.

Lemma ordered_gotChain as_ ms m u :
  ordered as_ ms u ->
  added (gotChain m u) = withKey (keyOf m) as_
  /\ marked (gotChain m u) = withKey (keyOf m) ms.
Proof.
  intros O. specialize (O (keyOf m)). unfold gotChain.
  destruct (orderedChains u !! keyOf m); [exact O|].
  destruct O as [-> ->]. auto.
Qed.

Lemma ordered_add as_ ms m u : ordered as_ ms u -> ordered (as_ ++ [m]) ms (add m u).
Proof.
  intros O key. rewrite lookup_add. rewrite withKey_app.
  destruct (ordered_gotChain as_ ms m u O) as [A M].
  case_decide as D.
  - subst key. cbn [added marked chain_add chain_markMessageExplicitly].
    now rewrite A, M, withKey_own.
  - specialize (O key). rewrite withKey_other, app_nil_r by exact D. exact O.
Qed.

Lemma ordered_mark as_ ms m u :
  ordered as_ ms u -> ordered as_ (ms ++ [m]) (markMessageExplicitly m u).
Proof.
  intros O key. rewrite lookup_markMessageExplicitly. rewrite withKey_app.
  destruct (ordered_gotChain as_ ms m u O) as [A M].
  case_decide as D.
  - subst key. cbn [added marked chain_add chain_markMessageExplicitly].
    now rewrite A, M, withKey_own.
  - specialize (O key). rewrite withKey_other, app_nil_r by exact D. exact O.
Qed.

Lemma ordered_disable as_ ms u : ordered as_ ms u -> ordered as_ ms (disable u).
Proof.
  intros O key. rewrite lookup_disable. specialize (O key).
  destruct (orderedChains u !! key); exact O.
Qed.

Lemma ordered_run ops : forall as_ ms u,
  ordered as_ ms u -> ordered (as_ ++ adds ops) (ms ++ marks ops) (run ops u).
Proof.
  induction ops as [|op ops IH]; intros as_ ms u O.
  - cbn. now rewrite !app_nil_r.
  - change (run (op :: ops) u) with (run ops (step op u)).
    destruct op as [m|m|]; cbn [step].
    + change (adds (Add m :: ops)) with (m :: adds ops).
      change (marks (Add m :: ops)) with (marks ops).
      replace (as_ ++ m :: adds ops) with ((as_ ++ [m]) ++ adds ops)
        by now rewrite <- app_assoc.
      apply IH. now apply ordered_add.
    + change (adds (MarkMessageExplicitly m :: ops)) with (adds ops).
      change (marks (MarkMessageExplicitly m :: ops)) with (m :: marks ops).
      replace (ms ++ m :: marks ops) with ((ms ++ [m]) ++ marks ops)
        by now rewrite <- app_assoc.
      apply IH. now apply ordered_mark.
    + apply IH. now apply ordered_disable.
Qed.

(** X18.  After any calls of [add], [markMessageExplicitly] and [disable]
    on a new [OrderingUtil], a chain has been given by [add] exactly the
    added messages with its key, in the order of the calls and as often as
    they were added, and likewise by [markMessageExplicitly]. *)
Theorem OrderingUtil_chain_gets_messages_in_order d pt rt mg (ops : list Op) key chain :
  orderedChains (run ops (new d pt rt mg)) !! key = Some chain ->
  added chain = withKey key (adds ops) /\ marked chain = withKey key (marks ops).
Proof.
  intros L.
  assert (O : ordered [] [] (new d pt rt mg)).
  { intros k. cbn. rewrite lookup_empty. auto. }
  apply (ordered_run ops) in O. specialize (O key). rewrite L in O. exact O.
Qed.

Lemma founded_weaken ms ms' u :
  (forall m, m ∈ ms -> m ∈ ms') -> founded ms u -> founded ms' u.
Proof.
  intros S F key chain L. destruct (F key chain L) as (m & Hm & P & C).
  exists m. auto.
Qed.

Lemma founded_gotChain ms m u :
  founded ms u ->
  exists m0, m0 ∈ ms ++ [m] /\ publisherId (gotChain m u) = getPublisherId m0
             /\ msgChainId (gotChain m u) = getMsgChainId m0.
Proof.
  intros F. unfold gotChain.
  destruct (orderedChains u !! keyOf m) as [chain|] eqn:L.
  - destruct (F _ _ L) as (m0 & H0 & P & C). exists m0.
    split; [apply elem_of_app; auto | auto].
  - exists m. split; [apply elem_of_app; right; now apply list_elem_of_singleton | auto].
Qed.

Lemma founded_step ms op u : founded ms u -> founded (ms ++ messages [op]) (step op u).
Proof.
  intros F. destruct op as [m|m|]; cbn [step].
  - intros key chain. rewrite lookup_add.
    destruct (founded_gotChain ms m u F) as (m0 & H0 & P & C).
    case_decide.
    + intros [= <-]. exists m0. auto.
    + intros L. destruct (F _ _ L) as (m1 & H1 & P1 & C1).
      exists m1. split; [apply elem_of_app; auto | auto].
  - intros key chain. rewrite lookup_markMessageExplicitly.
    destruct (founded_gotChain ms m u F) as (m0 & H0 & P & C).
    case_decide.
    + intros [= <-]. exists m0. auto.
    + intros L. destruct (F _ _ L) as (m1 & H1 & P1 & C1).
      exists m1. split; [apply elem_of_app; auto | auto].
  - cbn. rewrite app_nil_r. intros key chain. rewrite lookup_disable.
    destruct (orderedChains u !! key) as [c|] eqn:L; [|discriminate].
    intros [= <-]. exact (F _ _ L).
Qed.

Lemma founded_run ops : forall ms u,
  founded ms u -> founded (ms ++ messages ops) (run ops u).
Proof.
  induction ops as [|op ops IH]; intros ms u F.
  - cbn. now rewrite app_nil_r.
  - change (run (op :: ops) u) with (run ops (step op u)).
    change (op :: ops) with ([op] ++ ops).
    unfold messages. rewrite omap_app, app_assoc.
    apply IH. now apply founded_step.
Qed.

(** X19.  With publisher ids that are Ethereum addresses, every message a
    chain was given carries the publisher id and the chain id that the chain
    was constructed with: a chain never gets a message of another
    publisher or of another chain of the same publisher. *)
Theorem OrderingUtil_chain_gets_own_messages d pt rt mg (ops : list Op) key chain m :
  wellFormed ops ->
  orderedChains (run ops (new d pt rt mg)) !! key = Some chain ->
  received m chain ->
  getPublisherId m = publisherId chain /\ getMsgChainId m = msgChainId chain.
Proof.
  intros WF L R.
  pose proof (routed_run ops [] _ (routed_new d pt rt mg)) as [R1 _].
  assert (F : founded [] (new d pt rt mg)).
  { intros k c. cbn. now rewrite lookup_empty. }
  apply (founded_run ops) in F. cbn [app] in R1, F.
  destruct (R1 _ _ L) as (K & _ & H). destruct (H m R) as [Hm Km].
  destruct (F _ _ L) as (m0 & H0 & P & C).
  assert (S : sameKeyPair m m0).
  { apply keyOf_inj; [now apply WF | now apply WF|].
    rewrite Km, <- K, P, C. reflexivity. }
  unfold sameKeyPair in S. injection S as -> ->. auto.
Qed.

End OrderingUtilChains.

(** * Concrete runs of the further properties *)

Section ConcreteReading.

Import PushBuffer Examples.

(** X1 on two values and an error given to [endWrite]. *)
Lemma PushBuffer_endWrite_flushes_in_order_witness :
  exists s0 : PushBuffer.t nat string,
    new 3 = Returns s0
    /\ reads 4 (endWrite (Some "boom"%string) (fst (pushAll [item 1; item 2] s0)))
       = [Yield 1%nat; Yield 2%nat; Throw "boom"%string; Done].
Proof.
  eexists. split; [reflexivity|].
  exact (PushBuffer_endWrite_flushes_in_order 3 _ [1%nat; 2%nat] (Some "boom"%string)
           eq_refl).
Defined.

(** X2 on one value, an error item and a value pushed after it. *)
Lemma PushBuffer_error_item_ends_iteration_witness :
  exists s0 : PushBuffer.t nat string,
    new 5 = Returns s0
    /\ reads 3 (fst (pushAll [item 1; Err "boom"%string; item 2] s0))
       = [Yield 1%nat; Throw "boom"%string; Done]
    /\ isDone (afterReads 3 (fst (pushAll [item 1; Err "boom"%string; item 2] s0))) = true.
Proof.
  eexists. split; [reflexivity|].
  destruct (PushBuffer_error_item_ends_iteration 5 _ [1%nat] "boom"%string [item 2]
              eq_refl) as (R & D & _).
  exact (conj R D).
Defined.

(** X4: [endWrite()], a read, and then a push. *)
Lemma PushBuffer_push_rejected_after_close_witness :
  exists s0 : PushBuffer.t nat string,
    new 1 = Returns s0
    /\ closes (T := nat) (Error := string) (OpEndWrite None) = true
    /\ snd (push (item 5) (run [OpNext] (step (OpEndWrite None) s0))) = Some false.
Proof.
  eexists. split; [reflexivity|]. split; [reflexivity|].
  exact (f_equal snd
           (PushBuffer_push_rejected_after_close _ (OpEndWrite None) [OpNext] (item 5)
              eq_refl)).
Defined.

(** X5 on a buffer read once and returned, with a push and a read after. *)
Lemma PushBuffer_done_is_final_witness :
  exists s0 : PushBuffer.t nat string,
    new 1 = Returns s0
    /\ isDone (run [OpPush (item 7); OpNext; OpReturn] s0) = true
    /\ isDone (run [OpPush (item 1); OpNext]
                   (run [OpPush (item 7); OpNext; OpReturn] s0)) = true
    /\ snd (next (run [OpPush (item 1); OpNext]
                      (run [OpPush (item 7); OpNext; OpReturn] s0))) <> Yield 1%nat.
Proof.
  eexists. split; [reflexivity|]. split; [reflexivity|].
  destruct (PushBuffer_done_is_final
              (run [OpPush (item 7); OpNext; OpReturn]
                   (mk [] 1 (Gate.close Gate.new) (Gate.close Gate.new)
                       None false SuspendedStart []))
              [OpPush (item 1); OpNext] eq_refl) as (D & N & _).
  exact (conj D (N 1%nat)).
Defined.

(** X6 on a new buffer: the read waits, the push of 7 is what it yields. *)
Lemma PushBuffer_waiting_read_gets_next_push_witness :
  exists s0 s' : PushBuffer.t nat string,
    new 1 = Returns s0
    /\ isWritable s0 = true
    /\ snd (next s0) = Pending
    /\ resume (fst (push (item 7) (fst (next s0)))) = Some (s', [Yield 7%nat]).
Proof.
  eexists.
  destruct (PushBuffer_waiting_read_gets_next_push
              (mk [] 1 (Gate.close Gate.new) (Gate.close Gate.new)
                  None false SuspendedStart [] : PushBuffer.t nat string)
              7%nat eq_refl (or_introl eq_refl) eq_refl eq_refl)
    as (P & s' & R & _).
  exists s'. split; [reflexivity|]. split; [reflexivity|]. exact (conj P R).
Defined.

(** X7 on a buffer of size 1 with one item. *)
Lemma PushBuffer_clear_leaves_push_pending_witness :
  exists s0 : PushBuffer.t nat string,
    new 1 = Returns s0
    /\ Z.of_nat (List.length [item 0]) = 1
    /\ pushPending (clear (fst (pushAll [item 0] s0))) = true
    /\ snd (next (clear (fst (pushAll [item 0] s0)))) = Pending.
Proof.
  eexists. split; [reflexivity|]. split; [reflexivity|].
  destruct (PushBuffer_clear_leaves_push_pending 1 _ [item 0] eq_refl eq_refl)
    as (_ & P & N & _).
  exact (conj P N).
Defined.

(** X3: a second [endWrite] with another error. *)
Lemma PushBuffer_endWrite_keeps_first_error_witness :
  exists s0 : PushBuffer.t nat string,
    new 2 = Returns s0
    /\ reads 3 (endWrite (Some "second"%string)
                  (endWrite (Some "first"%string) (fst (pushAll [item 1] s0))))
       = [Yield 1%nat; Throw "first"%string; Done].
Proof.
  eexists. split; [reflexivity|].
  exact (PushBuffer_endWrite_keeps_first_error 2 _ [1%nat] "first"%string
           (Some "second"%string) eq_refl).
Defined.

(** X8 on a source of two items that then fails, into a buffer of size 3. *)
Lemma PushBuffer_pull_delivers_in_order_witness :
  exists s0 s1 s2 : PushBuffer.t nat string,
    new 3 = Returns s0
    /\ Z.of_nat (List.length [1%nat; 2%nat]) < 3
    /\ pull_into (mkSource [1%nat; 2%nat] (Some "boom"%string)) s0
       = Ended (Caught "boom"%string) s1
    /\ reads 4 s1 = [Yield 1%nat; Yield 2%nat; Throw "boom"%string; Done]
    /\ pull (mkSource [1%nat; 2%nat] (Some "boom"%string)) s0
       = Ended (Caught "boom"%string) s2
    /\ reads 4 s2 = [Yield 1%nat; Yield 2%nat; Done; Done].
Proof.
  eexists.
  destruct (PushBuffer_pull_delivers_in_order 3 _ [1%nat; 2%nat] (Some "boom"%string)
              eq_refl eq_refl) as ((s1 & P1 & R1) & (s2 & P2 & R2)).
  exists s1, s2. split; [reflexivity|]. split; [reflexivity|].
  exact (conj P1 (conj R1 (conj P2 R2))).
Defined.

(** X9 on a source of two items, into a buffer of size 1. *)
Lemma PushBuffer_pull_waits_when_full_witness :
  exists s0 s' : PushBuffer.t nat string,
    new 1 = Returns s0
    /\ 1 <= Z.of_nat (List.length [1%nat; 2%nat])
    /\ pull (mkSource [1%nat; 2%nat] None) s0 = Blocked (mkSource [2%nat] None) s'
    /\ buffer s' = [item 1].
Proof.
  eexists.
  assert (L : 1 <= Z.of_nat (List.length [1%nat; 2%nat])) by (cbn; lia).
  destruct (PushBuffer_pull_waits_when_full 1 _ [1%nat; 2%nat] (@None string)
              eq_refl L) as (s' & P & _ & B & _).
  exists s'. split; [reflexivity|]. split; [exact L|]. exact (conj P B).
Defined.

End ConcreteReading.

Section ConcreteTeardown.

Import Pipeline.

(** X10 on a pipeline with one stage whose iteration was started and
    returned: [cleanup] has been called and its body has not ended. *)
Lemma Pipeline_stages_frozen_after_start_witness :
  exists p : Pipeline.t (list nat) string,
    pipings [Pipe (map S)] (new [1%nat] None) = Returns p
    /\ tidy (iterate_start p)
    /\ isIterating (iterate_start p) = true
    /\ (exists x, pipe (cons 0%nat) (run [ReturnStart; Cleanup None] (iterate_start p))
                  = Throws x /\ isIllegalState x = true)
    /\ List.length (getTransforms
                      (definition (run [ReturnStart; Cleanup None] (iterate_start p))))
       = 1%nat
    /\ source (definition (run [ReturnStart; Cleanup None] (iterate_start p))) = [1%nat].
Proof.
  eexists. split; [reflexivity|].
  assert (T : tidy (iterate_start
                      (set_definition
                         (definition_pipe (map S)
                            (definition (new (Error := string) [1%nat] None)))
                         (new (Error := string) [1%nat] None))))
    by (apply (tidy_step IterateStart);
        apply (tidy_pipings [Pipe (map S)] (new (Error := string) [1%nat] None));
        [reflexivity | apply tidy_new]).
  split; [exact T|]. split; [reflexivity|].
  destruct (Pipeline_stages_frozen_after_start _
              [ReturnStart; Cleanup None] (Pipe (cons 0%nat)) T eq_refl)
    as (P & K & _ & S).
  split; [exact P|]. split; [|exact S].
  rewrite K; [reflexivity | discriminate].
Defined.

(** X11 on an upstream error followed by a [return()]. *)
Lemma Pipeline_cleanup_returns_source_once_witness :
  firstCleanup [IterateStart; Cleanup (Some "boom"%string)] = Some (Some "boom"%string)
  /\ sourceReturned
       (run [ReturnStart; Cleanup None]
          (run [Continue None; Continue None; Continue None; Continue None]
             (run [IterateStart; Cleanup (Some "boom"%string)]
                (new (Gen := list nat) [] None)))) = 1%nat
  /\ onError
       (run [ReturnStart; Cleanup None]
          (run [Continue None; Continue None; Continue None; Continue None]
             (run [IterateStart; Cleanup (Some "boom"%string)]
                (new (Gen := list nat) [] None)))) = ["boom"%string].
Proof.
  split; [reflexivity|].
  exact (Pipeline_cleanup_returns_source_once (Gen := list nat) [] None
           [IterateStart; Cleanup (Some "boom"%string)] None None None None
           [ReturnStart; Cleanup None] (Some "boom"%string) eq_refl).
Defined.

(** X12 on a pipeline with one stage: after [cleanup] the composition is
    the source. *)
Lemma Pipeline_cleanup_clears_stages_witness :
  firstCleanup (Error := string) [IterateStart; Cleanup None] = Some None
  /\ always beforeFinallyFulfils
       ([IterateStart; Cleanup None]
          ++ [Continue None; Continue None; Continue None; Continue None])
       (new (Gen := list nat) (Error := string) [1%nat]
          (Some (definition_pipe (map S) (newDefinition [1%nat])))) = true
  /\ always finallyFulfils
       ([IterateStart; Cleanup None]
          ++ [Continue None; Continue None; Continue None; Continue None])
       (new (Gen := list nat) (Error := string) [1%nat]
          (Some (definition_pipe (map S) (newDefinition [1%nat])))) = true
  /\ composed
       (run []
          (run [Continue None; Continue None; Continue None; Continue None]
             (run [IterateStart; Cleanup None]
                (new (Gen := list nat) (Error := string) [1%nat]
                   (Some (definition_pipe (map S) (newDefinition [1%nat])))))))
     = [1%nat].
Proof.
  split; [reflexivity|]. split; [reflexivity|]. split; [reflexivity|].
  destruct (Pipeline_cleanup_clears_stages (Gen := list nat) (Error := string) [1%nat]
              (Some (definition_pipe (map S) (newDefinition [1%nat])))
              [IterateStart; Cleanup None] None None None None [] None
              eq_refl eq_refl eq_refl)
    as [_ C].
  exact C.
Defined.

(** When a listener of [onFinally] rejects the promise that [cleanup]
    awaits, [clearTransforms()] is not reached: the stage stays. *)
Example Pipeline_onFinally_rejected_keeps_stages :
  composed
    (run [IterateStart; Cleanup None; Continue None; Continue None;
          Continue (Some "listener"%string)]
       (new (Gen := list nat) (Error := string) [1%nat]
          (Some (definition_pipe (map S) (newDefinition [1%nat])))))
  = [2%nat].
Proof. reflexivity. Qed.

End ConcreteTeardown.

Section ConcretePromises.

Import POnceRef Promises.

(** X14: a call, [reset()], and then the settlement of the call. *)
Lemma pOnce_reset_rearms_witness :
  Forall (settlesBefore (List.length (calls (run [Called] (@pOnce nat string)))))
         [Settled 0%nat (inl 5%nat) : Event nat string]
  /\ isStarted (run [Settled 0%nat (inl 5%nat)] (reset (run [Called] (@pOnce nat string))))
     = false
  /\ snd (pOnceWrap (run [Settled 0%nat (inl 5%nat)]
                       (reset (run [Called] (@pOnce nat string)))))
     = Invokes 1%nat.
Proof.
  assert (F : Forall (settlesBefore
                        (List.length (calls (run [Called] (@pOnce nat string)))))
                     [Settled 0%nat (inl 5%nat) : Event nat string]).
  { repeat constructor. }
  split; [exact F|].
  destruct (pOnce_reset_rearms [Called] [Settled 0%nat (inl 5%nat)] F) as (S & I & _).
  exact (conj S I).
Defined.

(** X15: the first call is rejected; two calls later the reason is thrown
    and [fn] has run once. *)
Lemma pOnce_caches_first_outcome_witness :
  forallb (fun e : Event nat string => negb (isReset e)) [Called; Called] = true
  /\ snd (pOnceWrap (run [Called; Called]
                       (settle 0%nat (inr "boom"%string) (fst (pOnceWrap pOnce)))))
     = ThrowsReason (ReturnType := nat) "boom"%string
  /\ invoked (run [Called; Called]
                (settle (ReturnType := nat) 0%nat (inr "boom"%string) (fst (pOnceWrap pOnce))))
     = [0%nat].
Proof.
  split; [reflexivity|].
  exact (pOnce_caches_first_outcome (ReturnType := nat) (inr "boom"%string)
           [Called; Called] eq_refl).
Defined.

(** X17: [undefined], then 'boom', then 'late'. *)
Lemma tryInSequence_all_rejected_witness :
  Reason "boom"%string <> Undefined
  /\ tryInSequence (T := nat)
       [Rejects Undefined; Rejects (Reason "boom"%string); Rejects (Reason "late"%string)]
     = (Rejects (Reason "boom"%string), 3%nat).
Proof.
  assert (NE : Reason "boom"%string <> Undefined) by discriminate.
  split; [exact NE|].
  destruct (tryInSequence_all_rejected (T := nat) 1 (Reason "boom"%string)
              [Reason "late"%string] NE) as [H _].
  exact H.
Defined.

End ConcretePromises.

Section ConcreteChains.

Import OrderingUtil Examples.

(** X18 on three messages of two publishers: the chain of the first
    publisher was given [m1] by [add] and [m2] by [markMessageExplicitly]. *)
Lemma OrderingUtil_chain_gets_messages_in_order_witness :
  exists chain,
    orderedChains (run [Add m1; Add m3; MarkMessageExplicitly m2] (new 10 None None None))
      !! keyOf m1 = Some chain
    /\ added chain = [m1] /\ marked chain = [m2].
Proof.
  eexists. split; [vm_compute; reflexivity|].
  exact (OrderingUtil_chain_gets_messages_in_order 10 None None None
           [Add m1; Add m3; MarkMessageExplicitly m2] (keyOf m1) _ eq_refl).
Defined.

(** X19 on the same run: what the chain of the second publisher was given
    is of that publisher. *)
Lemma OrderingUtil_chain_gets_own_messages_witness :
  exists chain,
    wellFormed [Add m1; Add m3; MarkMessageExplicitly m2]
    /\ orderedChains (run [Add m1; Add m3; MarkMessageExplicitly m2] (new 10 None None None))
         !! keyOf m3 = Some chain
    /\ received m3 chain
    /\ publisherId chain = bob.
Proof.
  assert (WF : wellFormed [Add m1; Add m3; MarkMessageExplicitly m2]).
  { intros m H. cbn in H.
    repeat (apply elem_of_cons in H as [-> | H]); try reflexivity.
    now apply elem_of_nil in H. }
  eexists. split; [exact WF|].
  assert (L : orderedChains (run [Add m1; Add m3; MarkMessageExplicitly m2]
                               (new 10 None None None))
                !! keyOf m3 = Some (mkChain bob "chain" 10 [m3] [])) by (vm_compute; reflexivity).
  assert (R : received m3 (mkChain bob "chain" 10 [m3] []))
    by (left; apply elem_of_cons; auto).
  split; [exact L|]. split; [exact R|].
  destruct (OrderingUtil_chain_gets_own_messages 10 None None None _ _ _ m3 WF L R)
    as [P _].
  symmetry. exact P.
Defined.

End ConcreteChains.
